(** * The redis storage of the MaxScale cache filter

    A shallow embedding of
    [server/modules/filter/cache/storage/storage_redis/redisstorage.cc]:
    the [Redis] wrapper around a hiredis context, the session token
    [RedisToken] with its four operations, and the factory
    [RedisStorage::create].

    The pool jobs are written in a state-and-failure monad.  The state is
    the token the job holds through [sThis] (its hiredis context: the
    commands appended so far and the replies the server is going to give)
    together with the MaxScale log.  A job either reaches its final
    [m_pWorker->execute(...)] or stops: in a debug build at a failed
    [mxb_assert], in a release build at a read that faults.  A release
    build reads the elements of a reply unchecked; what a read outside the
    reply finds is a parameter of the model, and every property holds
    whatever it is. *)

From Stdlib Require Import ZArith List String Ascii Bool Lia.
Import ListNotations.

Set Warnings "-register-all".

Local Open Scope string_scope.
Local Open Scope Z_scope.

(** ** C strings *)

(** [char] data is a [string]: a sequence of 8-bit characters that carries
    its own length, as [std::string], [vector<char>] and the
    pointer-and-length pairs of the source do. *)

(** What a function that takes a [const char*] sees: the bytes before the
    first NUL. *)
Fixpoint c_str (s : string) : string :=
  match s with
  | EmptyString => EmptyString
  | String c s' => if Ascii.eqb c Ascii.zero then EmptyString else String c (c_str s')
  end.

(** [strcmp(a, b) == 0] *)
Definition strcmp_eq0 (a b : string) : bool := String.eqb (c_str a) (c_str b).

(** The double quote character, for format strings that contain it. *)
Definition dquote : string := String (ascii_of_nat 34) EmptyString.

(** ** hiredis *)

Module Hiredis.

Definition REDIS_OK : Z := 0.
Definition REDIS_ERR : Z := -1.

(** [redisReply]: the [type] field selects which of the other fields
    carry data.  hiredis leaves the fields a type does not use zeroed. *)
Inductive redisReply : Type :=
| REDIS_REPLY_STRING (str : string)
| REDIS_REPLY_ARRAY (element : list redisReply)
| REDIS_REPLY_INTEGER (integer : Z)
| REDIS_REPLY_NIL
| REDIS_REPLY_STATUS (str : string)
| REDIS_REPLY_ERROR (str : string).

(** An argument of a format string: [%b] takes a pointer and a length,
    [%u] an unsigned number. *)
Inductive format_arg : Type :=
| arg_b (data : string)
| arg_u (n : Z).

(** A command handed to [redisvAppendCommand] (format and arguments) or
    to [redisAppendCommandArgv] (the argument vector; [argvlen] is the
    length each [string] carries). *)
Inductive redis_command : Type :=
| Format (zFormat : string) (args : list format_arg)
| Argv (argv : list string).

(** [redisContext], as far as the storage observes it: [obuf] holds the
    commands appended, oldest first; [replies] holds the outcome of every
    coming [redisGetReply], [Some r] for [REDIS_OK] with reply [r] and
    [None] for a failed read.  When the list is used up the server has
    closed the connection and every further read fails. *)
Record redisContext : Type := mkContext {
  obuf : list redis_command;
  replies : list (option redisReply)
}.

End Hiredis.
Import Hiredis.

(** ** Cache types *)

(** [cache_result_t], the values the storage uses. *)
Inductive cache_result_t : Type :=
| CACHE_RESULT_OK
| CACHE_RESULT_NOT_FOUND
| CACHE_RESULT_ERROR
| CACHE_RESULT_PENDING.

(** [GWBUF]: a chain of buffers; [GWBUF_DATA] and [GWBUF_LENGTH] are the
    bytes of the first link. *)
Inductive GWBUF : Type :=
| gwbuf (data : string) (next : option GWBUF).

Definition GWBUF_DATA (b : GWBUF) : string :=
  match b with gwbuf d _ => d end.

(** [gwbuf_alloc_and_load(size, data)]: a new buffer of one link holding
    the first [size] bytes at [data]. *)
Definition gwbuf_alloc_and_load (size : nat) (data : string) : GWBUF :=
  gwbuf (substring 0 size data) None.

(** [gwbuf_clone]: a new reference to the same bytes. *)
Definition gwbuf_clone (b : GWBUF) : GWBUF := b.

(** A [mxb::Worker], by identity. *)
Definition Worker : Type := nat.

(** ** class RedisToken: the members *)

Record RedisToken : Type := mkToken {
  m_redis : redisContext;
  m_pWorker : Worker;
  m_ttl : Z
}.

(** What the lambda handed to [m_pWorker->execute] captured. *)
Inductive delivery : Type :=
| deliver_value (rv : cache_result_t) (pValue : option GWBUF)  (* get_value *)
| deliver_put (pClone : GWBUF) (rv : cache_result_t)           (* put_value *)
| deliver_result (rv : cache_result_t).                        (* del_value, invalidate *)

(** A call [worker->execute(lambda, mxb::Worker::EXECUTE_QUEUED)]. *)
Record post : Type := mkPost { target : Worker; task : delivery }.

(** What happens on a thread: the body of a pool job up to its post, and
    what a delivery lambda does when it runs. *)
Inductive event : Type :=
| job_body
| cb_value (rv : cache_result_t) (pValue : option GWBUF)
| cb (rv : cache_result_t)
| gwbuf_free (p : option GWBUF).

(** The lambdas, given [sThis.use_count()] at the time they run. *)
Definition run_delivery (use_count : Z) (d : delivery) : list event :=
  match d with
  | deliver_value rv pValue =>
      if 1 <? use_count then [cb_value rv pValue] else [gwbuf_free pValue]
  | deliver_put pClone rv =>
      gwbuf_free (Some pClone) :: (if 1 <? use_count then [cb rv] else [])
  | deliver_result rv =>
      if 1 <? use_count then [cb rv] else []
  end.

(** ** Logging *)

Inductive log_level : Type := LOG_ERR | LOG_WARNING.

(** A log line: its level and its format string (the arguments are not
    rendered). *)
Record log_entry : Type := mkLog { level : log_level; message : string }.

(** ** The job monad *)

Inductive failure : Type :=
| assertion_failed   (* a debug assertion did not hold: the process aborts *)
| invalid_read.      (* a read that faults: the process is killed *)

Inductive result (A : Type) : Type :=
| Val (a : A)
| Fail (f : failure).
Arguments Val {A} a.
Arguments Fail {A} f.

Record Env : Type := mkEnv {
  sThis : RedisToken;
  mxs_log : list log_entry
}.

(** A computation of a job: from the state before to a value, or the
    failure that stopped the job, and the state after. *)
Definition M (A : Type) : Type := Env -> result A * Env.

Definition ret {A} (a : A) (e : Env) : result A * Env := (Val a, e).

Definition bind {A B} (m : M A) (k : A -> M B) (e : Env) : result B * Env :=
  match m e with
  | (Val a, e') => k a e'
  | (Fail f, e') => (Fail f, e')
  end.

Definition fail {A} (f : failure) (e : Env) : result A * Env := (Fail f, e).

Declare Scope job_scope.
Delimit Scope job_scope with job.
Notation "x <- c1 ;; c2" := (bind c1 (fun x => c2))
  (at level 61, c1 at next level, right associativity) : job_scope.
Notation "c1 ;; c2" := (bind c1 (fun _ => c2))
  (at level 61, right associativity) : job_scope.
Local Open Scope job_scope.

(** The members a job reads through [sThis]. *)
Definition get_this (e : Env) : result RedisToken * Env := (Val (sThis e), e).

Definition set_redis (c : redisContext) (e : Env) : Env :=
  mkEnv (mkToken c (m_pWorker (sThis e)) (m_ttl (sThis e))) (mxs_log e).

Definition log_message (l : log_level) (msg : string) (e : Env) : result unit * Env :=
  (Val tt, mkEnv (sThis e) (mxs_log e ++ [mkLog l msg])).

Definition MXS_ERROR (msg : string) : M unit := log_message LOG_ERR msg.
Definition MXS_WARNING (msg : string) : M unit := log_message LOG_WARNING msg.

(** [for (i = 0; i < n; ++i) body(i)], counting from [i]. *)
Fixpoint for_from (i : nat) (n : nat) (body : nat -> M unit) : M unit :=
  match n with
  | O => ret tt
  | S n' => body i ;; for_from (S i) n' body
  end.

Definition for_ (n : nat) (body : nat -> M unit) : M unit := for_from 0 n body.

(** [for (i = 0; i < v.size(); ++i)] over the elements [v[i]] of a vector,
    with the local variables the body updates passed along. *)
Fixpoint for_each {A S : Type} (v : list A) (body : S -> A -> M S) (s : S) : M S :=
  match v with
  | [] => ret s
  | x :: v' => s' <- body s x ;; for_each v' body s'
  end.

(** ** class Redis::Reply

    The methods, on the [redisReply] a non-null [m_pReply] points to (so
    [mxb_assert(m_pReply)] holds wherever they are called). *)

Definition is_array (r : redisReply) : bool :=
  match r with REDIS_REPLY_ARRAY _ => true | _ => false end.

Definition is_error (r : redisReply) : bool :=
  match r with REDIS_REPLY_ERROR _ => true | _ => false end.

Definition is_integer (r : redisReply) : bool :=
  match r with REDIS_REPLY_INTEGER _ => true | _ => false end.

Definition is_nil (r : redisReply) : bool :=
  match r with REDIS_REPLY_NIL => true | _ => false end.

Definition is_status (r : redisReply) (zValue : option string) : bool :=
  match r with
  | REDIS_REPLY_STATUS s =>
      match zValue with
      | Some v => strcmp_eq0 s v
      | None => true
      end
  | _ => false
  end.

Definition is_string (r : redisReply) : bool :=
  match r with REDIS_REPLY_STRING _ => true | _ => false end.

(** The fields behind the accessors; a field the reply's type does not use
    is zero (a null pointer is [None]). *)
Definition field_str (r : redisReply) : option string :=
  match r with
  | REDIS_REPLY_STRING s | REDIS_REPLY_STATUS s | REDIS_REPLY_ERROR s => Some s
  | _ => None
  end.

Definition field_integer (r : redisReply) : Z :=
  match r with REDIS_REPLY_INTEGER i => i | _ => 0 end.

Definition field_element (r : redisReply) : list redisReply :=
  match r with REDIS_REPLY_ARRAY l => l | _ => [] end.

(** ** class Redis: sending and receiving *)

Definition appendCommand (c : redis_command) (e : Env) : result Z * Env :=
  let ctx := m_redis (sThis e) in
  (Val REDIS_OK, set_redis (mkContext (obuf ctx ++ [c]) (replies ctx)) e).

Definition appendCommandArgv (argv : list string) : M Z :=
  appendCommand (Argv argv).

(** [getReply(&reply)] on a [Reply] that was empty: [Some r] stands for a
    return value of [REDIS_OK] with [reply] reset to [r], [None] for any
    other return value, [reply] left empty. *)
Definition getReply (e : Env) : result (option redisReply) * Env :=
  let ctx := m_redis (sThis e) in
  match replies ctx with
  | [] => (Val None, e)
  | r :: rest => (Val r, set_redis (mkContext (obuf ctx) rest) e)
  end.

(** [command(zFormat, ...)]: [redisvCommand] appends the command and reads
    its reply; the [Reply] is empty ([None]) when that fails. *)
Definition command (c : redis_command) : M (option redisReply) :=
  appendCommand c ;; getReply.

Section Build.

(** Whether the build defines [SS_DEBUG].  [mxb_assert] and [MXB_AT_DEBUG]
    are macros of maxbase: in a debug build an assertion that fails
    aborts, in a release build both expand to nothing. *)
Variable SS_DEBUG : bool.

Definition mxb_assert (exp : bool) : M unit :=
  if SS_DEBUG then (if exp then ret tt else fail assertion_failed) else ret tt.

(** *** Redis::Reply: the accessors that assert *)

Definition integer (r : redisReply) : M Z :=
  mxb_assert (is_integer r) ;;
  ret (field_integer r).

Definition str (r : redisReply) : M (option string) :=
  mxb_assert (is_error r || is_status r None || is_string r) ;;
  ret (field_str r).

Definition len (r : redisReply) : M nat :=
  mxb_assert (is_error r || is_status r None || is_string r) ;;
  ret (match field_str r with Some s => String.length s | None => O end).

Definition elements (r : redisReply) : M nat :=
  mxb_assert (is_array r) ;;
  ret (List.length (field_element r)).

(** In a release build nothing stands between [element(i)] and the read of
    [m_pReply->element[i]].  For an [i] outside the reply, and for a reply
    that has no elements, C++ gives that read no meaning, and what comes of
    it is up to the compiler and the memory around the reply.  [stray reply
    i] is what comes of it: [None] when the read, or the first use of the
    word read, faults, and [Some x] when the job goes on with a [Reply]
    that reads as [x].  Nothing is assumed about it. *)
Variable stray : redisReply -> nat -> option redisReply.

(** [element(i)] reads [m_pReply->element[i]], after two assertions that
    only a debug build evaluates. *)
Definition element (r : redisReply) (i : nat) : M redisReply :=
  mxb_assert (is_array r) ;;
  mxb_assert (i <? List.length (field_element r))%nat ;;
  match nth_error (field_element r) i with
  | Some x => ret x
  | None =>
      match stray r i with
      | Some x => ret x
      | None => fail invalid_read
      end
  end.

(** *** Redis::expect_status, Redis::expect_n_status *)

Definition expect_status (zValue : string) (zContext : option string) : M bool :=
  let zContext := match zContext with Some c => c | None => "unspecified" end in
  reply <- getReply ;;
  rv <- match reply with
        | Some reply =>                                  (* rv == REDIS_OK *)
            if is_status reply None then
              s <- str reply ;;
              match s with
              | Some s =>
                  if negb (strcmp_eq0 s zValue) then
                    MXS_ERROR ("Expected status message '%s' in the context of %s, "
                               ++ "but received '%s'.") ;;
                    ret REDIS_ERR
                  else ret REDIS_OK
              | None => fail invalid_read
              end
            else
              MXS_ERROR ("Expected status message in the context of %s, "
                         ++ "but received a %s.") ;;
              ret REDIS_OK
        | None =>
            MXS_ERROR "Failed to read reply in the context of %s: %s, %s" ;;
            ret REDIS_ERR
        end ;;
  ret (rv =? REDIS_OK).

Fixpoint expect_n_status_from (n : nat) (zValue : string) (zContext : option string)
  (rv : bool) : M bool :=
  match n with
  | O => ret rv
  | S n' =>
      ok <- expect_status zValue zContext ;;
      expect_n_status_from n' zValue zContext (if negb ok then false else rv)
  end.

Definition expect_n_status (n : nat) (zValue : string) (zContext : option string) : M bool :=
  expect_n_status_from n zValue zContext true.

(** An asserted expression that itself calls asserting accessors; like
    every [mxb_assert] argument it is evaluated in debug builds only. *)
Definition mxb_assert_that (exp : M bool) : M unit :=
  if SS_DEBUG then (b <- exp ;; mxb_assert b) else ret tt.

(** ** class RedisToken: the pool jobs

    Each operation copies its arguments, hands a lambda to
    [mxs::thread_pool().execute] and returns [CACHE_RESULT_PENDING].  The
    [..._job] definitions are those lambdas; each ends in
    [sThis->m_pWorker->execute(delivery, mxb::Worker::EXECUTE_QUEUED)]. *)

Definition Worker_execute (w : Worker) (d : delivery) : M post :=
  ret (mkPost w d).

(** *** get_value *)

Definition get_value_job (rkey : string) : M post :=
  reply <- command (Format "GET %b" [arg_b rkey]) ;;
  let pValue : option GWBUF := None in
  let rv := CACHE_RESULT_ERROR in
  p <- match reply with
       | Some reply =>
           match reply with                              (* switch (reply.type()) *)
           | REDIS_REPLY_STRING _ =>
               n <- len reply ;;
               s <- str reply ;;
               match s with
               | Some s => ret (CACHE_RESULT_OK, Some (gwbuf_alloc_and_load n s))
               | None => fail invalid_read
               end
           | REDIS_REPLY_NIL => ret (CACHE_RESULT_NOT_FOUND, pValue)
           | _ =>
               MXS_WARNING "Unexpected redis redis return type (%s) received." ;;
               ret (rv, pValue)
           end
       | None =>
           MXS_WARNING "Fatally failed when fetching cached value from redis: %s" ;;
           ret (rv, pValue)
       end ;;
  this <- get_this ;;
  Worker_execute (m_pWorker this) (deliver_value (fst p) (snd p)).

Definition get_value (rkey : string) : cache_result_t * M post :=
  (CACHE_RESULT_PENDING, get_value_job rkey).

(** *** put_value *)

Definition HSET_format : string := "HSET %b %b " ++ dquote ++ "1" ++ dquote.

(** The commands of the transaction: everything the lambda appends. *)
Definition put_value_append (rkey : string) (invalidation_words : list string)
  (pClone : GWBUF) : M unit :=
  (* Start a redis transaction. *)
  rc <- appendCommand (Format "MULTI" []) ;;
  mxb_assert (rc =? REDIS_OK) ;;
  let n := List.length invalidation_words in
  (if negb (n =? 0)%nat then
     for_each invalidation_words
       (fun _ word =>
          rc <- appendCommand (Format HSET_format [arg_b word; arg_b rkey]) ;;
          mxb_assert (rc =? REDIS_OK))
       tt
   else ret tt) ;;
  (* Then the actual value is stored. *)
  this <- get_this ;;
  rc <- appendCommand (Format "SET %b %b PX %u"
                         [arg_b rkey; arg_b (GWBUF_DATA pClone); arg_u (m_ttl this)]) ;;
  mxb_assert (rc =? REDIS_OK) ;;
  (* Commit the transaction. *)
  rc <- appendCommand (Format "EXEC" []) ;;
  mxb_assert (rc =? REDIS_OK).

(** The reply to [EXEC]: the [if (rc == REDIS_OK)] block and its [else];
    [n] is the number of words, [rv] the value of [rv] on entry. *)
Definition put_value_exec (n : nat) (rv : cache_result_t) (reply : option redisReply)
  : M cache_result_t :=
  match reply with
  | Some reply =>                                        (* rc == REDIS_OK *)
      mxb_assert (is_array reply) ;;
      mxb_assert_that (m <- elements reply ;; ret (m =? n + 1)%nat) ;;
      (* #ifdef SS_DEBUG: the replies to the HSET commands *)
      (if SS_DEBUG then
         for_ n (fun i => el <- element reply i ;; mxb_assert (is_integer el))
       else ret tt) ;;
      (* Then the SET *)
      el <- element reply n ;;
      mxb_assert (is_status el None) ;;
      if negb (is_status el (Some "OK")) then
        str reply ;;                                     (* the argument reply.str() *)
        MXS_ERROR ("Failed when storing cache value to redis, expected 'OK' but "
                   ++ "received '%s'.") ;;
        ret CACHE_RESULT_ERROR
      else ret rv
  | None =>
      MXS_WARNING "Failed fatally when reading reply to EXEC: %s, %s" ;;
      ret CACHE_RESULT_ERROR
  end.

(** The replies: from [cache_result_t rv = CACHE_RESULT_OK] to the value
    [rv] has when the delivery is posted; [n] is the number of words. *)
Definition put_value_replies (n : nat) : M cache_result_t :=
  let rv := CACHE_RESULT_OK in
  (* This will be the response to MULTI above. *)
  ok <- expect_status "OK" (Some "MULTI") ;;
  if ok then
    (* All commands before EXEC should only return a status of QUEUED. *)
    expect_n_status (n + 1) "QUEUED" (Some "queued command") ;;
    (* The reply to EXEC *)
    reply <- getReply ;;
    put_value_exec n rv reply
  else
    MXS_ERROR "Failed when reading response to MULTI: %s, %s" ;;
    (* rc = CACHE_RESULT_ERROR; *)
    ret rv.

Definition put_value_job (rkey : string) (invalidation_words : list string)
  (pClone : GWBUF) : M post :=
  put_value_append rkey invalidation_words pClone ;;
  rv <- put_value_replies (List.length invalidation_words) ;;
  this <- get_this ;;
  Worker_execute (m_pWorker this) (deliver_put pClone rv).

Definition put_value (rkey : string) (invalidation_words : list string)
  (pValue : GWBUF) : cache_result_t * M post :=
  let pClone := gwbuf_clone pValue in
  (CACHE_RESULT_PENDING, put_value_job rkey invalidation_words pClone).

(** *** del_value *)

Definition del_value_job (rkey : string) : M post :=
  reply <- command (Format "DEL %b" [arg_b rkey]) ;;
  let rv := CACHE_RESULT_ERROR in
  rv <- match reply with
        | Some reply =>
            if is_integer reply then
              i <- integer reply ;;                      (* switch (reply.integer()) *)
              if i =? 0 then ret CACHE_RESULT_NOT_FOUND                 (* case 0 *)
              else if i =? 1 then ret CACHE_RESULT_OK                   (* case 1 *)
              else                                       (* default, falls through *)
                integer reply ;;
                MXS_WARNING "Unexpected number of values - %lld - deleted with one key," ;;
                ret CACHE_RESULT_OK
            else
              MXS_WARNING "Unexpected redis return type (%s) received." ;;
              ret rv
        | None =>
            MXS_WARNING "Failed fatally when deleting cached value from redis: %s" ;;
            ret rv
        end ;;
  this <- get_this ;;
  Worker_execute (m_pWorker this) (deliver_result rv).

Definition del_value (rkey : string) : cache_result_t * M post :=
  (CACHE_RESULT_PENDING, del_value_job rkey).

(** *** invalidate *)

(** The vectors the first loop of [invalidate] fills.  [hdel_argvlens] and
    [del_argvlen] run parallel to [hdel_argvs] and [del_argv] and hold the
    length of each entry, which a [string] carries itself. *)
Record gathered : Type := mkGathered {
  to_free : list redisReply;
  hdel_argvs : list (list string);
  del_argv : list string
}.

(** [for (size_t j = 0; j < elements; j = j + 2)]: the values [j] takes. *)
Definition every_second (elements : nat) : list nat :=
  filter Nat.even (seq 0 elements).

(** The body of the loop over [j]: [p] holds [del_argv] and [hdel_argv]. *)
Definition gather_field (reply : redisReply) (p : list string * list string) (j : nat)
  : M (list string * list string) :=
  el <- element reply j ;;
  if is_string el then
    s <- str el ;;
    l <- len el ;;
    match s with
    | Some s =>
        let key := substring 0 l s in
        ret ((fst p ++ [key])%list, (snd p ++ [key])%list)
    | None => fail invalid_read
    end
  else
    MXS_ERROR "Unexpected type returned by redis: %s" ;;
    ret p.

(** The reading of one [HGETALL] reply: the body of the loop over [words]. *)
Definition gather_word (acc : gathered) (word : string) : M gathered :=
  reply <- getReply ;;
  match reply with
  | Some reply =>                                        (* rc == REDIS_OK *)
      acc <- (if is_array reply then
                let hdel_argv := ["HDEL"; word] in
                m <- elements reply ;;
                (* 'j = j + 2' since key/value pairs are returned. *)
                p <- for_each (every_second m) (gather_field reply)
                       (del_argv acc, hdel_argv) ;;
                ret (mkGathered (to_free acc) (hdel_argvs acc ++ [snd p]) (fst p))
              else ret acc) ;;
      ret (mkGathered (to_free acc ++ [reply]) (hdel_argvs acc) (del_argv acc))
  | None =>
      MXS_ERROR "Could not read redis reply for hash update for '%s': %s, %s" ;;
      ret acc
  end.

(** Phase A: one [HGETALL] per word, then the replies are read. *)
Definition invalidate_append (words : list string) : M unit :=
  let n := List.length words in
  if negb (n =? 0)%nat then
    for_each words
      (fun _ word =>
         rc <- appendCommand (Format "HGETALL %b" [arg_b word]) ;;
         mxb_assert (rc =? REDIS_OK))
      tt
  else ret tt.

Definition invalidate_gather (words : list string) : M gathered :=
  invalidate_append words ;;
  for_each words gather_word (mkGathered [] [] ["DEL"]).

(** Phase B, the [if (del_argv.size() > 1)] block: its commands. *)
Definition invalidate_delete_append (g : gathered) : M unit :=
  rc <- appendCommand (Format "MULTI" []) ;;
  mxb_assert (rc =? REDIS_OK) ;;
  (* Delete the relevant keys from the hashes. *)
  for_each (hdel_argvs g)
    (fun _ hdel_argv =>
       if (2 <? List.length hdel_argv)%nat then
         rc <- appendCommandArgv hdel_argv ;;
         mxb_assert (rc =? REDIS_OK)
       else ret tt)
    tt ;;
  (* Delete all values, the DEL command. *)
  rc <- appendCommandArgv (del_argv g) ;;
  mxb_assert (rc =? REDIS_OK) ;;
  (* This will actually send everything. *)
  rc <- appendCommand (Format "EXEC" []) ;;
  mxb_assert (rc =? REDIS_OK).

(** Phase B, the reply to [EXEC]: the [if (rc == REDIS_OK)] block and its
    [else]; [size] is [hdel_argvs.size()], [rv] the value of [rv] on entry. *)
Definition invalidate_exec (size : nat) (rv : cache_result_t) (reply : option redisReply)
  : M cache_result_t :=
  match reply with
  | Some reply =>                                        (* rc == REDIS_OK *)
      mxb_assert (is_array reply) ;;
      mxb_assert_that (m <- elements reply ;; ret (m =? size + 1)%nat) ;;
      (* First the replies to the HDEL commands. *)
      for_ size (fun i => el <- element reply i ;; mxb_assert (is_integer el)) ;;
      (* Then the DEL *)
      el <- element reply size ;;
      mxb_assert (is_integer el) ;;
      ret rv
  | None =>
      MXS_ERROR ("Could not read EXEC reply from redis, the cache is now "
                 ++ "in an unknown state: %s, %s") ;;
      ret CACHE_RESULT_ERROR
  end.

(** Phase B: its replies. *)
Definition invalidate_delete_replies (size : nat) (rv : cache_result_t)
  : M cache_result_t :=
  (* This will be the response to MULTI above. *)
  ok <- expect_status "OK" (Some "MULTI") ;;
  if ok then
    (* All commands before EXEC should only return a status of QUEUED. *)
    expect_n_status (size + 1) "QUEUED" (Some "queued command") ;;
    (* The reply to EXEC *)
    reply <- getReply ;;
    invalidate_exec size rv reply
  else
    MXS_ERROR ("Could not read MULTI reply from redis, the cache is now "
               ++ "in an unknown state: %s, %s") ;;
    ret CACHE_RESULT_ERROR.

Definition invalidate_delete (g : gathered) (rv : cache_result_t) : M cache_result_t :=
  invalidate_delete_append g ;;
  invalidate_delete_replies (List.length (hdel_argvs g)) rv.

Definition invalidate_job (words : list string) : M post :=
  g <- invalidate_gather words ;;
  let rv := CACHE_RESULT_OK in
  rv <- (if (1 <? List.length (del_argv g))%nat then invalidate_delete g rv
         else ret rv) ;;
  (* to_free.clear() *)
  this <- get_this ;;
  Worker_execute (m_pWorker this) (deliver_result rv).

Definition invalidate (words : list string) : cache_result_t * M post :=
  (CACHE_RESULT_PENDING, invalidate_job words).

End Build.

(** *** The constructor and RedisToken::create *)

(** [RedisToken(pRedis, ttl)], run on the worker [current]:
    [mxb::Worker::get_current()] is the worker of the calling thread. *)
Definition RedisToken_new (current : Worker) (pRedis : redisContext) (ttl : Z) : RedisToken :=
  mkToken pRedis current ttl.

(** [RedisToken::create]: [pRedis] is what [redisConnect(host, port)] gave,
    [None] for a null handle. *)
Definition RedisToken_create (current : Worker) (pRedis : option redisContext) (ttl : Z)
  : bool * option RedisToken * list log_entry :=
  match pRedis with
  | Some pRedis => (true, Some (RedisToken_new current pRedis ttl), [])
  | None =>
      (false, None,
       [mkLog LOG_ERR "Could not create redis handle, are the arguments '%s:%d' valid?"])
  end.

(** ** class RedisStorage *)

Module RedisStorage.

(** [Storage::Config], the members the storage reads. *)
Record Config : Type := mkConfig {
  soft_ttl : Z;
  hard_ttl : Z;
  max_size : Z;
  max_count : Z
}.

Record RedisStorage : Type := mkStorage {
  m_name : string;
  m_config : Config;
  m_host : string;
  m_port : Z;
  m_ttl : Z
}.

(** The constructor, with the lines it logs. *)
Definition new (name : string) (config : Config) (host : string) (port : Z)
  : RedisStorage * list log_entry :=
  let log :=
    if negb (soft_ttl config =? hard_ttl config) then
      [mkLog LOG_WARNING ("The storage storage_redis does not distinguish between "
                          ++ "soft (%u ms) and hard ttl (%u ms). Hard ttl is used.")]
    else [] in
  let ms := hard_ttl config in
  let ttl := if ms =? 0 then 0 else hard_ttl config in
  (mkStorage name config host port ttl, log).

Definition max_size_warning : log_entry :=
  mkLog LOG_WARNING ("The storage storage_redis does not support specifying "
                     ++ "a maximum size of the cache storage.").

Definition max_count_warning : log_entry :=
  mkLog LOG_WARNING ("The storage storage_redis does not support specifying "
                     ++ "a maximum number of items in the cache storage.").

Definition bad_port_error : log_entry :=
  mkLog LOG_ERR ("The provided arugments '%s' does not translate into a valid "
                 ++ "host:port combination.").

Definition bad_format_error : log_entry :=
  mkLog LOG_ERR ("storage_redis expects a `storage_options` argument of "
                 ++ "HOST:PORT format: %s").

(** [RedisStorage::create_token], called on the worker [current]; [pRedis]
    is what [redisConnect(m_host, m_port)] gave. *)
Definition create_token (storage : RedisStorage) (current : Worker)
  (pRedis : option redisContext) : bool * option RedisToken * list log_entry :=
  RedisToken_create current pRedis (m_ttl storage).

Section Create.

(** [mxb::strtok(str, delim)] and [mxb::get_int(s, &value)] belong to
    maxbase.  [get_int s] is [Some n] when the call returns [true] and
    stores [n], and [None] when it returns [false]. *)
Variable strtok : string -> string -> list string.
Variable get_int : string -> option Z.

(** [RedisStorage::create]; [None] is the null pointer.  The allocation
    [new (std::nothrow)] is taken to succeed. *)
Definition create (name : string) (config : Config) (arguments : string)
  : option RedisStorage * list log_entry :=
  let log :=
    ((if negb (max_size config =? 0) then [max_size_warning] else [])
     ++ (if negb (max_count config =? 0) then [max_count_warning] else []))%list in
  let vs := strtok arguments ":" in
  if (List.length vs =? 2)%nat then
    let host := nth 0 vs "" in
    match get_int (nth 1 vs "") with
    | Some port =>
        if 0 <? port then
          let (storage, log') := new name config host port in
          (Some storage, (log ++ log')%list)
        else (None, (log ++ [bad_port_error])%list)
    | None => (None, (log ++ [bad_port_error])%list)
    end
  else (None, (log ++ [bad_format_error])%list).

End Create.

(** The pieces of a string between the characters of [delim]. *)
Fixpoint fields (delim : string) (s : string) : list string :=
  match s with
  | EmptyString => [EmptyString]
  | String c s' =>
      if existsb (Ascii.eqb c) (list_ascii_of_string delim) then
        EmptyString :: fields delim s'
      else
        match fields delim s' with
        | f :: fs => String c f :: fs
        | [] => [String c EmptyString]
        end
  end.

(** Modelled from the spec: [mxb::strtok] is not among the sources.  The
    spec has the argument parsed into colon-separated fields: the pieces
    of the string between the delimiter characters. *)
Definition spec_strtok (s delim : string) : list string := fields delim s.

(** The value of a decimal digit, and of a string of them. *)
Definition digit_value (c : ascii) : option Z :=
  let n := Z.of_nat (nat_of_ascii c) in
  if (48 <=? n) && (n <=? 57) then Some (n - 48) else None.

Fixpoint digits_value (s : string) (acc : Z) : option Z :=
  match s with
  | EmptyString => Some acc
  | String c s' =>
      match digit_value c with
      | Some d => digits_value s' (10 * acc + d)
      | None => None
      end
  end.

(** Modelled from the spec: [mxb::get_int] is not among the sources.  The
    spec has the port be a decimal integer: an optional minus sign and at
    least one decimal digit, nothing else. *)
Definition spec_get_int (s : string) : option Z :=
  match s with
  | EmptyString => None
  | String c s' =>
      if Ascii.eqb c "-"%char then
        match s' with
        | EmptyString => None
        | _ => option_map Z.opp (digits_value s' 0)
        end
      else digits_value s 0
  end.

End RedisStorage.

(** ** Workers and threads *)

(** A thread of the process: the event loop of a worker, or a thread of
    the pool. *)
Inductive thread : Type :=
| worker_thread (w : Worker)
| pool_thread (id : nat).

(** Modelled from the spec: [mxb::Worker::execute] is not among the
    sources.  The spec has [worker.post(job, mode=QUEUED)] enqueue the job
    for execution on that worker: the lambda of a post runs on the thread
    of its target, where it sees the use count of [sThis] at that time. *)
Definition Worker_run (use_count : Z) (p : post) : list (thread * event) :=
  map (pair (worker_thread (target p))) (run_delivery use_count (task p)).

(** The four operations of a token, with the arguments their jobs use. *)
Inductive operation : Type :=
| op_get_value (rkey : string)
| op_put_value (rkey : string) (invalidation_words : list string) (pValue : GWBUF)
| op_del_value (rkey : string)
| op_invalidate (words : list string).

Definition issue (dbg : bool) (stray : redisReply -> nat -> option redisReply)
  (op : operation) : cache_result_t * M post :=
  match op with
  | op_get_value rkey => get_value dbg rkey
  | op_put_value rkey words pValue => put_value dbg stray rkey words pValue
  | op_del_value rkey => del_value dbg rkey
  | op_invalidate words => invalidate dbg stray words
  end.

(** An operation from the call to the end of its delivery: the job runs on
    the thread [id] of the pool, and what it posts runs on the worker it
    names.  The result lists what happened, and on which thread. *)
Definition run_operation (dbg : bool) (stray : redisReply -> nat -> option redisReply)
  (op : operation) (e : Env) (id : nat) (use_count : Z) : list (thread * event) :=
  (pool_thread id, job_body)
  :: match fst (snd (issue dbg stray op) e) with
     | Val p => Worker_run use_count p
     | Fail _ => []
     end.

(** * Stating the properties *)

Local Open Scope list_scope.

(** ** Observing a state *)

(** The commands appended to the connection, the reads still to come, and
    a state built from its parts. *)
Definition sent (e : Env) : list redis_command := obuf (m_redis (sThis e)).

Definition pending (e : Env) : list (option redisReply) := replies (m_redis (sThis e)).

Definition env_of (cmds : list redis_command) (rs : list (option redisReply))
  (w : Worker) (ttl : Z) (log : list log_entry) : Env :=
  mkEnv (mkToken (mkContext cmds rs) w ttl) log.

(** The commands a job appended: what is in the output buffer after it,
    past what was there before. *)
Definition appended (before after : Env) : list redis_command :=
  skipn (List.length (sent before)) (sent after).

(** What the callback receives when the session is alive. *)
Definition delivered (d : delivery) : cache_result_t :=
  match d with
  | deliver_value rv _ | deliver_put _ rv | deliver_result rv => rv
  end.

(** The result a job posts, when it gets that far. *)
Definition posted_result (r : result post * Env) : result cache_result_t :=
  match fst r with
  | Val p => Val (delivered (task p))
  | Fail f => Fail f
  end.

(** The result [put_value] posts, or the failure that stopped the job. *)
Definition put_value_result (dbg : bool) (stray : redisReply -> nat -> option redisReply)
  (rkey : string) (words : list string) (pValue : GWBUF) (e : Env)
  : result cache_result_t :=
  posted_result (snd (put_value dbg stray rkey words pValue) e).

(** The result [invalidate] posts, or the failure that stopped the job. *)
Definition invalidate_result (dbg : bool) (stray : redisReply -> nat -> option redisReply)
  (words : list string) (e : Env) : result cache_result_t :=
  posted_result (snd (invalidate dbg stray words) e).

(** ** What an unchecked read finds *)

(** The [Reply] that [element(i)] hands back in a release build: the
    element at index [i] where the reply has one, and what the read
    outside the reply finds where it has none; [None] when that read
    faults. *)
Definition release_element (stray : redisReply -> nat -> option redisReply)
  (reply : redisReply) (i : nat) : option redisReply :=
  match nth_error (field_element reply) i with
  | Some x => Some x
  | None => stray reply i
  end.

(** In a release build the reads of [element(0)] to [element(n - 1)] all
    go through. *)
Definition reads_through (stray : redisReply -> nat -> option redisReply)
  (reply : redisReply) (n : nat) : bool :=
  forallb (fun i => match release_element stray reply i with
                    | Some _ => true
                    | None => false
                    end)
          (seq 0 n).

(** Two ways a process can take the reads outside a reply: each of them
    faults, or each of them finds a word that reads as [x]. *)
Definition faults : redisReply -> nat -> option redisReply := fun _ _ => None.

Definition finds (x : redisReply) : redisReply -> nat -> option redisReply :=
  fun _ _ => Some x.

(** The event is a call of the user callback. *)
Definition is_callback (x : thread * event) : bool :=
  match snd x with
  | cb_value _ _ | cb _ => true
  | job_body | gwbuf_free _ => false
  end.

(** ** Commands and log lines by name *)

Definition HSET (rkey word : string) : redis_command :=
  Format HSET_format [arg_b word; arg_b rkey].

Definition SET_PX (rkey : string) (value : string) (ttl : Z) : redis_command :=
  Format "SET %b %b PX %u" [arg_b rkey; arg_b value; arg_u ttl].

Definition HGETALL (word : string) : redis_command :=
  Format "HGETALL %b" [arg_b word].


(** ** Replies by shape *)

(** The read gave a Status that compares equal to [zValue]. *)
Definition status_is (zValue : string) (r : option redisReply) : bool :=
  match r with
  | Some reply => is_status reply (Some zValue)
  | None => false
  end.

(** The read failed, or gave a Status that differs from [zValue]. *)
Definition status_differs (zValue : string) (r : option redisReply) : bool :=
  match r with
  | Some reply => is_status reply None && negb (is_status reply (Some zValue))
  | None => true
  end.

(** The read gave an Array of [size + 1] Integer replies. *)
Definition counts_array (size : nat) (r : option redisReply) : bool :=
  match r with
  | Some (REDIS_REPLY_ARRAY els) =>
      (List.length els =? size + 1)%nat && forallb is_integer els
  | _ => false
  end.

(** The reply is an Array of [n + 1] elements whose element at index [n]
    is a Status equal to OK. *)
Definition stored_array (n : nat) (reply : redisReply) : bool :=
  match reply with
  | REDIS_REPLY_ARRAY els =>
      (List.length els =? n + 1)%nat
      && match nth_error els n with
         | Some el => is_status el (Some "OK"%string)
         | None => false
         end
  | _ => false
  end.

(** ** Properties of computations *)

(** [respects P m]: the relation [P] holds between the state before [m]
    and the state after it, whether [m] fails or not. *)
Definition respects {A} (P : Env -> Env -> Prop) (m : M A) : Prop :=
  forall e, P e (snd (m e)).

(** The token's worker and ttl stay what they are. *)
Definition same_token (e e' : Env) : Prop :=
  m_pWorker (sThis e') = m_pWorker (sThis e) /\ m_ttl (sThis e') = m_ttl (sThis e).

(** No command is appended. *)
Definition same_sent (e e' : Env) : Prop := sent e' = sent e.

(** [m] does not fail. *)
Definition total {A} (m : M A) : Prop := forall e, exists a e', m e = (Val a, e').

(** A job posts to the worker its token holds. *)
Definition posts_to_creator (m : M post) : Prop :=
  forall e p e', m e = (Val p, e') -> target p = m_pWorker (sThis e).

(** ** Reads and what they are taken for *)

(** The outcome of the next [redisGetReply]: the head of the pending
    reads, a failed read when none is left. *)
Definition next_read (rs : list (option redisReply)) : option redisReply :=
  hd None rs.

(** The outcomes of the next [n] reads. *)
Definition reads (n : nat) (rs : list (option redisReply)) : list (option redisReply) :=
  firstn n rs ++ repeat None (n - List.length rs).

(** [expect_status] returns [true] for this read. *)
Definition accepts (zValue : string) (r : option redisReply) : bool :=
  negb (status_differs zValue r).

(** The line [expect_status] logs for a read, if any. *)
Definition status_line (zValue : string) (r : option redisReply) : list log_entry :=
  match r with
  | Some reply =>
      if is_status reply None then
        if is_status reply (Some zValue) then []
        else [mkLog LOG_ERR ("Expected status message '%s' in the context of %s, "
                             ++ "but received '%s'.")%string]
      else [mkLog LOG_ERR ("Expected status message in the context of %s, "
                           ++ "but received a %s.")%string]
  | None => [mkLog LOG_ERR "Failed to read reply in the context of %s: %s, %s"]
  end.

(** The pending reads stay what they are. *)
Definition same_pending (e e' : Env) : Prop := pending e' = pending e.

(** [m], when it returns a value, returns one that satisfies [Q]. *)
Definition returns {A} (Q : A -> Prop) (m : M A) : Prop :=
  forall e a e', m e = (Val a, e') -> Q a.


(** The replies of a server that follows the protocol to the transaction
    of a [put_value] with [n] words: OK for [MULTI], QUEUED for each of the
    [n + 1] queued commands, and for [EXEC] the array of their results,
    the count of each [HSET] and the OK of the [SET]. *)
Definition put_value_protocol (counts : list Z) : list (option redisReply) :=
  Some (REDIS_REPLY_STATUS "OK")
  :: repeat (Some (REDIS_REPLY_STATUS "QUEUED")) (S (List.length counts))
  ++ [Some (REDIS_REPLY_ARRAY
              (map REDIS_REPLY_INTEGER counts ++ [REDIS_REPLY_STATUS "OK"]))].

(** ** Phase A of invalidate as a function of the reads *)

(** What the loop over [j] takes from the element at index [j] of an
    [HGETALL] reply: the bytes of a String, and a line in the log for
    anything else. *)
Definition field_key (l : list redisReply) (j : nat) : list string :=
  match nth_error l j with
  | Some (REDIS_REPLY_STRING s) => [s]
  | _ => []
  end.

Definition field_line (l : list redisReply) (j : nat) : list log_entry :=
  match nth_error l j with
  | Some (REDIS_REPLY_STRING _) => []
  | _ => [mkLog LOG_ERR "Unexpected type returned by redis: %s"]
  end.

(** The keys of an [HGETALL] reply: the String elements at its even
    indices, in order. *)
Definition fields_of (l : list redisReply) : list string :=
  flat_map (field_key l) (every_second (List.length l)).

(** What one read adds to the vectors, and to the log. *)
Definition gather_step (acc : gathered) (word : string) (r : option redisReply)
  : gathered :=
  match r with
  | Some (REDIS_REPLY_ARRAY l) =>
      mkGathered (to_free acc ++ [REDIS_REPLY_ARRAY l])
                 (hdel_argvs acc ++ [["HDEL"; word]%string ++ fields_of l])
                 (del_argv acc ++ fields_of l)
  | Some reply => mkGathered (to_free acc ++ [reply]) (hdel_argvs acc) (del_argv acc)
  | None => acc
  end.

Definition gather_lines (r : option redisReply) : list log_entry :=
  match r with
  | Some (REDIS_REPLY_ARRAY l) => flat_map (field_line l) (every_second (List.length l))
  | Some _ => []
  | None => [mkLog LOG_ERR "Could not read redis reply for hash update for '%s': %s, %s"]
  end.

Fixpoint gather_from (acc : gathered) (words : list string)
  (rs : list (option redisReply)) : gathered :=
  match words with
  | [] => acc
  | word :: words' => gather_from (gather_step acc word (next_read rs)) words' (tl rs)
  end.

(** The vectors Phase A ends with, when the pending reads are [rs]. *)
Definition gathered_keys (words : list string) (rs : list (option redisReply))
  : gathered :=
  gather_from (mkGathered [] [] ["DEL"%string]) words rs.

(** The invariant of the loop over the words. *)
Definition gathered_ok (words : list string) (g : gathered) : Prop :=
  del_argv g = "DEL"%string :: flat_map (skipn 2) (hdel_argvs g)
  /\ Forall (fun a => exists word, In word words /\ firstn 2 a = ["HDEL"; word]%string)
            (hdel_argvs g)
  /\ (List.length (hdel_argvs g) <= List.length (to_free g))%nat.

(** An argument vector of [HDEL] that names a key: these are sent. *)
Definition has_keys (hdel_argv : list string) : bool :=
  (2 <? List.length hdel_argv)%nat.

(** The commands of Phase B for the vectors [g]. *)
Definition delete_commands (g : gathered) : list redis_command :=
  Format "MULTI" [] :: map Argv (filter has_keys (hdel_argvs g))
  ++ [Argv (del_argv g); Format "EXEC" []].

(** The reply to [HGETALL] for a hash that holds the given fields and
    values. *)
Definition hgetall_reply (kvs : list (string * string)) : redisReply :=
  REDIS_REPLY_ARRAY
    (flat_map (fun kv => [REDIS_REPLY_STRING (fst kv); REDIS_REPLY_STRING (snd kv)]) kvs).

(** The words whose hash holds at least one field. *)
Definition with_keys (wks : list (string * list (string * string)))
  : list (string * list (string * string)) :=
  filter (fun wk => match snd wk with [] => false | _ :: _ => true end) wks.

(** The replies of a server that follows the protocol to [invalidate] for
    the words and hashes [wks], some of which hold a field: the fields and
    values of each hash; then OK for [MULTI], QUEUED for the [HDEL] of
    each word with keys and for the [DEL], and for [EXEC] the array of
    their counts. *)
Definition invalidate_protocol (wks : list (string * list (string * string)))
  (counts : list Z) : list (option redisReply) :=
  map (fun wk => Some (hgetall_reply (snd wk))) wks
  ++ Some (REDIS_REPLY_STATUS "OK")
  :: repeat (Some (REDIS_REPLY_STATUS "QUEUED")) (S (List.length (with_keys wks)))
  ++ [Some (REDIS_REPLY_ARRAY (map REDIS_REPLY_INTEGER counts))].

(** ** RedisStorage: the configuration *)

(** [RedisStorage::get_config]: the value written to [*pConfig]. *)
Definition get_config (storage : RedisStorage.RedisStorage) : RedisStorage.Config :=
  RedisStorage.m_config storage.

(** The warning of the constructor. *)
Definition ttl_warning : log_entry :=
  mkLog LOG_WARNING ("The storage storage_redis does not distinguish between "
                     ++ "soft (%u ms) and hard ttl (%u ms). Hard ttl is used.")%string.

(** The warnings [create] and the constructor log for a configuration, in
    the order they are logged. *)
Definition config_warnings (config : RedisStorage.Config) (constructed : bool)
  : list log_entry :=
  (if RedisStorage.max_size config =? 0 then [] else [RedisStorage.max_size_warning])
  ++ (if RedisStorage.max_count config =? 0 then [] else [RedisStorage.max_count_warning])
  ++ (if constructed && negb (RedisStorage.soft_ttl config =? RedisStorage.hard_ttl config)
      then [ttl_warning] else []).

(** ** class Redis::Reply: who frees a reply

    A [redisReply*] is an address; [None] is the null pointer.  Every
    operation comes with the addresses it hands to [freeReplyObject], in
    order. *)
Module Ownership.

Inductive Ownership : Type := OWNED | BORROWED.

Record Reply : Type := mkReply {
  m_pReply : option nat;
  m_ownership : Ownership
}.

(** [Reply()] *)
Definition empty : Reply := mkReply None OWNED.

(** [reset(pReply, ownership)] *)
Definition reset (this : Reply) (pReply : option nat) (ownership : Ownership)
  : Reply * list nat :=
  (mkReply pReply ownership,
   match m_pReply this, m_ownership this with
   | Some p, OWNED => [p]
   | _, _ => []
   end).

(** [~Reply()]: [reset()], that is [reset(nullptr)]. *)
Definition destroy (this : Reply) : list nat := snd (reset this None OWNED).

(** [Reply(Reply&& other)]: the new object and what is left of [other]. *)
Definition move (other : Reply) : Reply * Reply :=
  (mkReply (m_pReply other) (m_ownership other), mkReply None OWNED).

(** [operator=(Reply&& rhs)]: the object assigned to, what is left of
    [rhs], and the addresses freed. *)
Definition move_assign (this rhs : Reply) : Reply * Reply * list nat :=
  let (this', freed) := reset this (m_pReply rhs) (m_ownership rhs) in
  (this', mkReply None OWNED, freed).

(** [element(i)], for the address [child] of [m_pReply->element[i]]. *)
Definition element (child : nat) : Reply := mkReply (Some child) BORROWED.

(** [element = reply.element(i)] for one child after the other, as the
    loops over the reply to [EXEC] do: the temporary is moved into
    [element] and then destroyed. *)
Fixpoint assign_elements (el : Reply) (children : list nat) : Reply * list nat :=
  match children with
  | [] => (el, [])
  | child :: children' =>
      let '(el', temporary, freed) := move_assign el (element child) in
      let (el'', freed') := assign_elements el' children' in
      (el'', freed ++ destroy temporary ++ freed')
  end.

End Ownership.

(** * Properties *)

(** ** The monad's equations *)

Lemma bind_val {A B} (m : M A) (k : A -> M B) e a e' :
  m e = (Val a, e') -> bind m k e = k a e'.
Proof. intros H; unfold bind; now rewrite H. Qed.

Lemma bind_fail {A B} (m : M A) (k : A -> M B) e f e' :
  m e = (Fail f, e') -> bind m k e = (Fail f, e').
Proof. intros H; unfold bind; now rewrite H. Qed.

Lemma mxb_assert_true dbg e : mxb_assert dbg true e = (Val tt, e).
Proof. now destruct dbg. Qed.

Lemma substring_all (s : string) : substring 0 (String.length s) s = s.
Proof. induction s as [|c s IH]; simpl; [reflexivity | now rewrite IH]. Qed.

(** ** What a computation leaves alone *)

(** A relation [P] between the state before and the state after that is
    reflexive and transitive holds across a computation, failed or not,
    once it holds across the primitives the computation is made of. *)

Section Frames.

Variable P : Env -> Env -> Prop.
Hypothesis P_refl : forall e, P e e.
Hypothesis P_trans : forall e1 e2 e3, P e1 e2 -> P e2 e3 -> P e1 e3.

Lemma respects_ret {A} (a : A) : respects P (ret a).
Proof. intros e; apply P_refl. Qed.

Lemma respects_fail {A} f : respects P (@fail A f).
Proof. intros e; apply P_refl. Qed.

Lemma respects_bind {A B} (m : M A) (k : A -> M B) :
  respects P m -> (forall a, respects P (k a)) -> respects P (bind m k).
Proof.
  intros Hm Hk e. unfold bind. specialize (Hm e).
  destruct (m e) as [[a|f] e']; simpl in *; [|assumption].
  eapply P_trans; [eassumption | apply Hk].
Qed.

Lemma respects_for_each {A S} (body : S -> A -> M S) v :
  (forall s x, respects P (body s x)) -> forall s, respects P (for_each v body s).
Proof.
  intros Hb. induction v as [|x v IH]; intros s; simpl.
  - apply respects_ret.
  - apply respects_bind; [apply Hb | intros; apply IH].
Qed.

Lemma respects_for_from body :
  (forall i, respects P (body i)) -> forall n i, respects P (for_from i n body).
Proof.
  intros Hb n. induction n as [|n IH]; intros i; simpl.
  - apply respects_ret.
  - apply respects_bind; [apply Hb | intros; apply IH].
Qed.

End Frames.

Lemma same_token_refl e : same_token e e.
Proof. now split. Qed.

Lemma same_token_trans e1 e2 e3 : same_token e1 e2 -> same_token e2 e3 -> same_token e1 e3.
Proof. unfold same_token; intros [-> ->] [-> ->]; now split. Qed.

Lemma same_sent_refl e : same_sent e e.
Proof. reflexivity. Qed.

Lemma same_sent_trans e1 e2 e3 : same_sent e1 e2 -> same_sent e2 e3 -> same_sent e1 e3.
Proof. unfold same_sent; congruence. Qed.

Lemma token_appendCommand c : respects same_token (appendCommand c).
Proof. intros e; now split. Qed.

Lemma token_getReply : respects same_token getReply.
Proof. intros e; unfold getReply; destruct (replies _); now split. Qed.

Lemma token_log l msg : respects same_token (log_message l msg).
Proof. intros e; now split. Qed.

Lemma token_get_this : respects same_token get_this.
Proof. intros e; now split. Qed.

Lemma token_assert dbg b : respects same_token (mxb_assert dbg b).
Proof. intros e; destruct dbg, b; now split. Qed.

Lemma sent_getReply : respects same_sent getReply.
Proof. intros e; unfold getReply; now destruct (replies _). Qed.

Lemma sent_log l msg : respects same_sent (log_message l msg).
Proof. intros e; reflexivity. Qed.

Lemma sent_get_this : respects same_sent get_this.
Proof. intros e; reflexivity. Qed.

Lemma sent_assert dbg b : respects same_sent (mxb_assert dbg b).
Proof. intros e; now destruct dbg, b. Qed.

Create HintDb frame.
#[local] Hint Resolve token_appendCommand token_getReply token_log token_get_this
  token_assert sent_getReply sent_log sent_get_this sent_assert : frame.

(** Goes through a computation built from binds, branches and loops down
    to the computations the hint database knows. *)
Ltac frame :=
  repeat first
    [ exact same_token_refl | exact same_token_trans
    | exact same_sent_refl | exact same_sent_trans
    | solve [auto with frame]
    | apply respects_ret
    | apply respects_fail
    | apply respects_bind
    | apply respects_for_each
    | apply respects_for_from
    | match goal with
      | |- respects _ (match ?x with _ => _ end) => destruct x
      | |- respects _ (let (_, _) := ?x in _) => destruct x
      end
    | progress intros ].

Lemma token_expect_status dbg v c : respects same_token (expect_status dbg v c).
Proof. unfold expect_status, str, MXS_ERROR. frame. Qed.

Lemma sent_expect_status dbg v c : respects same_sent (expect_status dbg v c).
Proof. unfold expect_status, str, MXS_ERROR. frame. Qed.

#[local] Hint Resolve token_expect_status sent_expect_status : frame.

Lemma token_expect_n_status dbg n v c : respects same_token (expect_n_status dbg n v c).
Proof.
  unfold expect_n_status. generalize true.
  induction n as [|n IH]; intros b; simpl; frame.
Qed.

Lemma sent_expect_n_status dbg n v c : respects same_sent (expect_n_status dbg n v c).
Proof.
  unfold expect_n_status. generalize true.
  induction n as [|n IH]; intros b; simpl; frame.
Qed.

#[local] Hint Resolve token_expect_n_status sent_expect_n_status : frame.

Lemma sent_put_value_replies dbg stray n : respects same_sent (put_value_replies dbg stray n).
Proof.
  unfold put_value_replies, put_value_exec, mxb_assert_that, elements, element,
    str, for_, MXS_ERROR, MXS_WARNING.
  frame.
Qed.

(** ** put_value: the commands *)

Lemma set_redis_env c cmds rs w ttl log :
  set_redis c (env_of cmds rs w ttl log) = env_of (obuf c) (replies c) w ttl log.
Proof. now destruct c. Qed.

Lemma append_each dbg (f : string -> redis_command) ws : forall cmds rs w ttl log,
  for_each ws
    (fun (_ : unit) word =>
       rc <- appendCommand (f word) ;; mxb_assert dbg (rc =? REDIS_OK)) tt
    (env_of cmds rs w ttl log)
  = (Val tt, env_of (cmds ++ map f ws) rs w ttl log).
Proof.
  induction ws as [|x ws IH]; intros cmds rs w ttl log; simpl.
  - now rewrite app_nil_r.
  - unfold bind at 1. unfold bind at 1. simpl. rewrite mxb_assert_true.
    unfold set_redis; simpl. fold (env_of (cmds ++ [f x]) rs w ttl log).
    rewrite IH. now rewrite <- app_assoc.
Qed.

Lemma put_value_append_eq dbg rkey words pClone cmds rs w ttl log :
  put_value_append dbg rkey words pClone (env_of cmds rs w ttl log)
  = (Val tt,
     env_of (cmds ++ Format "MULTI" [] :: map (HSET rkey) words
                  ++ [SET_PX rkey (GWBUF_DATA pClone) ttl; Format "EXEC" []])
            rs w ttl log).
Proof.
  unfold put_value_append.
  rewrite (bind_val _ _ _ REDIS_OK (env_of (cmds ++ [Format "MULTI" []]) rs w ttl log))
    by reflexivity.
  rewrite (bind_val _ _ _ tt (env_of (cmds ++ [Format "MULTI" []]) rs w ttl log))
    by apply mxb_assert_true.
  rewrite (bind_val _ _ _ tt
             (env_of ((cmds ++ [Format "MULTI" []]) ++ map (HSET rkey) words) rs w ttl log)).
  2:{ destruct words as [|x ws]; [simpl; now rewrite app_nil_r|].
      apply (append_each dbg (HSET rkey)). }
  unfold bind, get_this, appendCommand; simpl.
  rewrite !mxb_assert_true. unfold set_redis, env_of; simpl.
  repeat rewrite <- app_assoc. reflexivity.
Qed.

Lemma env_eta e :
  e = env_of (sent e) (pending e) (m_pWorker (sThis e)) (m_ttl (sThis e)) (mxs_log e).
Proof. now destruct e as [[[cmds rs] w ttl] log]. Qed.

(** ** Reading status replies *)

(** Runs a computation on a state whose pending reads are known. *)
Ltac run :=
  repeat (unfold bind, ret, fail, get_this, log_message, MXS_ERROR, MXS_WARNING,
            appendCommand, appendCommandArgv, getReply, command, Worker_execute,
            str, len, integer, elements, element, mxb_assert_that, mxb_assert,
            set_redis, env_of;
          simpl).

Lemma expect_status_is dbg v c r cmds rest w ttl log :
  status_is v r = true ->
  expect_status dbg v c (env_of cmds (r :: rest) w ttl log)
  = (Val true, env_of cmds rest w ttl log).
Proof.
  destruct r as [[]|]; simpl; try discriminate. intros H.
  unfold expect_status. destruct dbg; run; now rewrite H.
Qed.

Lemma expect_status_differs dbg v c r cmds rest w ttl log :
  status_differs v r = true ->
  exists log',
    expect_status dbg v c (env_of cmds (r :: rest) w ttl log)
    = (Val false, env_of cmds rest w ttl log').
Proof.
  destruct r as [[]|]; simpl; try discriminate; intros H.
  - apply negb_true_iff in H.
    unfold expect_status. destruct dbg; run; rewrite H; simpl; eauto.
  - unfold expect_status. run. eauto.
Qed.

Lemma expect_status_eof dbg v c cmds w ttl log :
  exists log',
    expect_status dbg v c (env_of cmds [] w ttl log)
    = (Val false, env_of cmds [] w ttl log').
Proof. unfold expect_status. run. eauto. Qed.

(** One call consumes one read, whatever it is, and does not fail. *)
Lemma expect_status_consumes dbg v c r cmds rest w ttl log :
  exists b log',
    expect_status dbg v c (env_of cmds (r :: rest) w ttl log)
    = (Val b, env_of cmds rest w ttl log').
Proof.
  unfold expect_status.
  destruct r as [[]|]; destruct dbg; run; eauto;
    match goal with |- context [strcmp_eq0 ?a ?b] => destruct (strcmp_eq0 a b) end;
    simpl; eauto.
Qed.

Lemma expect_n_status_consumes dbg v c queued :
  forall cmds rest w ttl log,
  exists b log',
    expect_n_status dbg (List.length queued) v c (env_of cmds (queued ++ rest) w ttl log)
    = (Val b, env_of cmds rest w ttl log').
Proof.
  unfold expect_n_status. generalize true.
  induction queued as [|r queued IH]; intros rv cmds rest w ttl log; simpl.
  - unfold ret. eauto.
  - destruct (expect_status_consumes dbg v c r cmds (queued ++ rest) w ttl log)
      as (b & log1 & H1).
    rewrite (bind_val _ _ _ _ _ H1). apply IH.
Qed.

(** ** put_value *)

Lemma put_value_job_eq dbg stray rkey words pClone cmds rs w ttl log :
  put_value_job dbg stray rkey words pClone (env_of cmds rs w ttl log)
  = (rv <- put_value_replies dbg stray (List.length words) ;;
     this <- get_this ;;
     Worker_execute (m_pWorker this) (deliver_put pClone rv))
      (env_of (cmds ++ Format "MULTI" [] :: map (HSET rkey) words
                    ++ [SET_PX rkey (GWBUF_DATA pClone) ttl; Format "EXEC" []])
              rs w ttl log).
Proof.
  unfold put_value_job.
  now rewrite (bind_val _ _ _ _ _ (put_value_append_eq dbg rkey words pClone cmds rs w ttl log)).
Qed.

Lemma sent_after_put_value dbg stray rkey words pClone e :
  sent (snd (put_value_job dbg stray rkey words pClone e))
  = sent e ++ Format "MULTI" [] :: map (HSET rkey) words
           ++ [SET_PX rkey (GWBUF_DATA pClone) (m_ttl (sThis e)); Format "EXEC" []].
Proof.
  rewrite (env_eta e) at 1. rewrite put_value_job_eq.
  match goal with |- sent (snd (?m ?e1)) = _ =>
    assert (H : respects same_sent m)
  end.
  { pose proof (sent_put_value_replies dbg stray (List.length words)).
    unfold Worker_execute. frame. }
  rewrite H. reflexivity.
Qed.

(** C8.  The commands [put_value] appends to the connection are, in this
    order: [MULTI]; one [HSET word rkey "1"] for each invalidation word, in
    the order of the list (none for an empty list); the [SET] of the
    value; [EXEC].  This holds whatever the server replies and however
    the job ends. *)
Theorem put_value_command_order dbg stray rkey words pValue e :
  sent (snd (snd (put_value dbg stray rkey words pValue) e))
  = sent e
    ++ [Format "MULTI" []]
    ++ map (fun word => Format HSET_format [arg_b word; arg_b rkey]) words
    ++ [Format "SET %b %b PX %u"
          [arg_b rkey; arg_b (GWBUF_DATA pValue); arg_u (m_ttl (sThis e))];
        Format "EXEC" []].
Proof. exact (sent_after_put_value dbg stray rkey words (gwbuf_clone pValue) e). Qed.



(** C1, the code at the failing inputs.  When the read of the reply to
    [MULTI] fails (here: the connection is closed, or the read returns an
    error), or the reply is a Status other than OK, the job logs the
    failure and posts [CACHE_RESULT_OK]. *)
Theorem put_value_MULTI_failure_posts_OK dbg stray rkey words pValue cmds rest w ttl log :
  put_value_result dbg stray rkey words pValue (env_of cmds [] w ttl log)
  = Val CACHE_RESULT_OK
  /\ put_value_result dbg stray rkey words pValue (env_of cmds (None :: rest) w ttl log)
     = Val CACHE_RESULT_OK
  /\ put_value_result dbg stray rkey words pValue
       (env_of cmds (Some (REDIS_REPLY_STATUS "QUEUED") :: rest) w ttl log)
     = Val CACHE_RESULT_OK.
Proof.
  unfold put_value_result, put_value, posted_result; simpl.
  rewrite !put_value_job_eq. unfold put_value_replies, expect_status.
  repeat split; destruct dbg; run; reflexivity.
Qed.

(** ** get_value *)


(** ** del_value *)


(** ** invalidate *)

Lemma invalidate_append_eq dbg words cmds rs w ttl log :
  invalidate_append dbg words (env_of cmds rs w ttl log)
  = (Val tt, env_of (cmds ++ map HGETALL words) rs w ttl log).
Proof.
  unfold invalidate_append.
  destruct words as [|x ws]; [simpl; unfold ret; now rewrite app_nil_r|].
  apply (append_each dbg HGETALL).
Qed.

(** *** Phase A does not fail *)

Lemma total_ret {A} (a : A) : total (ret a).
Proof. intros e; unfold ret; eauto. Qed.

Lemma total_bind {A B} (m : M A) (k : A -> M B) :
  total m -> (forall a, total (k a)) -> total (bind m k).
Proof.
  intros Hm Hk e. destruct (Hm e) as (a & e' & H).
  rewrite (bind_val _ _ _ _ _ H). apply Hk.
Qed.

Lemma total_for_each {A S} (body : S -> A -> M S) v :
  (forall s x, In x v -> total (body s x)) -> forall s, total (for_each v body s).
Proof.
  induction v as [|x v IH]; intros Hb s; simpl.
  - apply total_ret.
  - apply total_bind; [apply Hb; now left|].
    intros s'. apply IH. intros s0 y Hy. apply Hb. now right.
Qed.

Lemma total_getReply : total getReply.
Proof. intros e; unfold getReply; destruct (replies _); eauto. Qed.

Lemma total_log l msg : total (log_message l msg).
Proof. intros e; unfold log_message; eauto. Qed.

Lemma total_assert_true dbg : total (mxb_assert dbg true).
Proof. intros e; rewrite mxb_assert_true; eauto. Qed.

Lemma every_second_lt n j : In j (every_second n) -> (j < n)%nat.
Proof.
  unfold every_second. intros H. apply filter_In in H. destruct H as [H _].
  apply in_seq in H. lia.
Qed.

Lemma total_gather_field dbg stray l p j :
  (j < List.length l)%nat -> total (gather_field dbg stray (REDIS_REPLY_ARRAY l) p j).
Proof.
  intros Hj e. unfold gather_field.
  assert (Hb : (j <? List.length l)%nat = true) by now apply Nat.ltb_lt.
  apply nth_error_Some in Hj.
  destruct (nth_error l j) as [el|] eqn:Hel; [|congruence].
  destruct dbg; run; rewrite ?Hb, Hel; destruct el; simpl; eauto.
Qed.

Lemma total_gather_word dbg stray acc word : total (gather_word dbg stray acc word).
Proof.
  intros e. unfold gather_word.
  destruct (total_getReply e) as ([reply|] & e1 & H1); rewrite (bind_val _ _ _ _ _ H1).
  - destruct reply as [|l| | | |]; try solve [run; eauto].
    assert (Hm : elements dbg (REDIS_REPLY_ARRAY l) e1 = (Val (List.length l), e1)).
    { unfold elements; simpl. now rewrite (bind_val _ _ _ _ _ (mxb_assert_true dbg e1)). }
    cbn [is_array]. unfold bind at 1. unfold bind at 1. rewrite Hm.
    destruct (total_for_each (gather_field dbg stray (REDIS_REPLY_ARRAY l))
                (every_second (List.length l))
                (fun s x Hx => total_gather_field dbg stray l s x (every_second_lt _ _ Hx))
                (del_argv acc, ["HDEL"%string; word]) e1) as (p & e2 & H2).
    unfold bind at 1. rewrite H2. run. eauto.
  - run. eauto.
Qed.

Lemma total_invalidate_gather dbg stray words : total (invalidate_gather dbg stray words).
Proof.
  intros e. unfold invalidate_gather. rewrite (env_eta e).
  rewrite (bind_val _ _ _ _ _ (invalidate_append_eq dbg words _ _ _ _ _)).
  apply total_for_each. intros; apply total_gather_word.
Qed.

Lemma token_gather_field dbg stray reply p j : respects same_token (gather_field dbg stray reply p j).
Proof. unfold gather_field, element, str, len, MXS_ERROR. frame. Qed.

Lemma sent_gather_field dbg stray reply p j : respects same_sent (gather_field dbg stray reply p j).
Proof. unfold gather_field, element, str, len, MXS_ERROR. frame. Qed.

#[local] Hint Resolve token_gather_field sent_gather_field : frame.

Lemma token_gather_word dbg stray acc word : respects same_token (gather_word dbg stray acc word).
Proof. unfold gather_word, elements, MXS_ERROR. frame. Qed.

Lemma sent_gather_word dbg stray acc word : respects same_sent (gather_word dbg stray acc word).
Proof. unfold gather_word, elements, MXS_ERROR. frame. Qed.

#[local] Hint Resolve token_gather_word sent_gather_word : frame.

(** Phase A appends one [HGETALL] per word and nothing else, and leaves
    the token's worker as it is. *)
Lemma invalidate_gather_frame dbg stray words e g e1 :
  invalidate_gather dbg stray words e = (Val g, e1) ->
  sent e1 = sent e ++ map HGETALL words
  /\ m_pWorker (sThis e1) = m_pWorker (sThis e).
Proof.
  unfold invalidate_gather. rewrite (env_eta e) at 1.
  rewrite (bind_val _ _ _ _ _ (invalidate_append_eq dbg words _ _ _ _ _)).
  intros H.
  assert (Hs : respects same_sent
                 (for_each words (gather_word dbg stray) (mkGathered [] [] ["DEL"%string])))
    by frame.
  assert (Ht : respects same_token
                 (for_each words (gather_word dbg stray) (mkGathered [] [] ["DEL"%string])))
    by frame.
  specialize (Hs (env_of (sent e ++ map HGETALL words) (pending e)
                    (m_pWorker (sThis e)) (m_ttl (sThis e)) (mxs_log e))).
  specialize (Ht (env_of (sent e ++ map HGETALL words) (pending e)
                    (m_pWorker (sThis e)) (m_ttl (sThis e)) (mxs_log e))).
  rewrite H in Hs, Ht. simpl in Hs, Ht. destruct Ht as [Ht _]. now split.
Qed.

(** *** Phase B *)

Lemma append_each_long dbg argvs : forall cmds rs w ttl log,
  for_each argvs
    (fun (_ : unit) hdel_argv =>
       if (2 <? List.length hdel_argv)%nat then
         rc <- appendCommandArgv hdel_argv ;; mxb_assert dbg (rc =? REDIS_OK)
       else ret tt) tt
    (env_of cmds rs w ttl log)
  = (Val tt,
     env_of (cmds ++ map Argv (filter (fun a => (2 <? List.length a)%nat) argvs))
            rs w ttl log).
Proof.
  induction argvs as [|x argvs IH]; intros cmds rs w ttl log; simpl.
  - unfold ret. now rewrite app_nil_r.
  - destruct (2 <? List.length x)%nat.
    + unfold bind at 1. unfold bind at 1. unfold appendCommandArgv, appendCommand.
      simpl. rewrite mxb_assert_true.
      unfold set_redis; simpl. fold (env_of (cmds ++ [Argv x]) rs w ttl log).
      rewrite IH. simpl. now rewrite <- app_assoc.
    + unfold bind at 1. unfold ret at 1. apply IH.
Qed.

Lemma invalidate_delete_append_eq dbg g cmds rs w ttl log :
  invalidate_delete_append dbg g (env_of cmds rs w ttl log)
  = (Val tt,
     env_of (cmds ++ Format "MULTI" []
                  :: map Argv (filter (fun a => (2 <? List.length a)%nat) (hdel_argvs g))
                  ++ [Argv (del_argv g); Format "EXEC" []])
            rs w ttl log).
Proof.
  unfold invalidate_delete_append.
  rewrite (bind_val _ _ _ REDIS_OK (env_of (cmds ++ [Format "MULTI" []]) rs w ttl log))
    by reflexivity.
  rewrite (bind_val _ _ _ tt (env_of (cmds ++ [Format "MULTI" []]) rs w ttl log))
    by apply mxb_assert_true.
  rewrite (bind_val _ _ _ _ _ (append_each_long dbg (hdel_argvs g) _ rs w ttl log)).
  unfold bind, appendCommandArgv, appendCommand; simpl.
  rewrite !mxb_assert_true. unfold set_redis, env_of; simpl.
  repeat rewrite <- app_assoc. reflexivity.
Qed.

(** The loop over the replies to the [HDEL] commands passes when every
    element it looks at is an Integer. *)
Lemma counts_checked dbg stray els n : forall i e,
  (i + n <= List.length els)%nat ->
  forallb is_integer els = true ->
  for_from i n
    (fun i => el <- element dbg stray (REDIS_REPLY_ARRAY els) i ;; mxb_assert dbg (is_integer el)) e
  = (Val tt, e).
Proof.
  induction n as [|n IH]; intros i e Hi Hall; simpl; [reflexivity|].
  assert (Hlt : (i < List.length els)%nat) by lia.
  assert (Hb : (i <? List.length els)%nat = true) by now apply Nat.ltb_lt.
  destruct (nth_error els i) as [el|] eqn:Hel;
    [|apply nth_error_Some in Hlt; congruence].
  assert (Hint : is_integer el = true).
  { apply nth_error_In in Hel. rewrite forallb_forall in Hall. now apply Hall. }
  assert (Hstep : (el <- element dbg stray (REDIS_REPLY_ARRAY els) i ;;
                   mxb_assert dbg (is_integer el)) e = (Val tt, e)).
  { destruct dbg; run; rewrite ?Hb, Hel; simpl; rewrite ?Hint; reflexivity. }
  rewrite (bind_val _ _ _ _ _ Hstep). apply IH; [lia|assumption].
Qed.

(** C10.  With an empty list of words the job appends no command, reads no
    reply and logs nothing: the state is left as it was, and the delivery
    posted to the token's worker carries [CACHE_RESULT_OK], which the
    lambda hands to the callback when the session is alive. *)
Theorem invalidate_no_words dbg stray e :
  snd (invalidate dbg stray []) e
  = (Val (mkPost (m_pWorker (sThis e)) (deliver_result CACHE_RESULT_OK)), e)
  /\ forall use_count,
       run_delivery use_count (deliver_result CACHE_RESULT_OK)
       = if 1 <? use_count then [cb CACHE_RESULT_OK] else [].
Proof. split; [destruct dbg; reflexivity | reflexivity]. Qed.

(** ** Where the callback runs *)

Lemma posts_bind {A} (m : M A) (k : A -> M post) :
  respects same_token m -> (forall a, posts_to_creator (k a)) ->
  posts_to_creator (bind m k).
Proof.
  intros Hm Hk e p e' H. unfold bind in H. specialize (Hm e).
  destruct (m e) as [[a|f] e1]; [|discriminate].
  simpl in Hm. destruct Hm as [Hw _]. rewrite <- Hw. eapply Hk, H.
Qed.

Lemma posts_final d :
  posts_to_creator (this <- get_this ;; Worker_execute (m_pWorker this) d).
Proof. intros e p e' H. run. now inversion H. Qed.

Lemma token_put_value_append dbg rkey words pClone :
  respects same_token (put_value_append dbg rkey words pClone).
Proof. unfold put_value_append. frame. Qed.

Lemma token_put_value_replies dbg stray n : respects same_token (put_value_replies dbg stray n).
Proof.
  unfold put_value_replies, put_value_exec, mxb_assert_that, elements, element,
    str, for_, MXS_ERROR, MXS_WARNING.
  frame.
Qed.

Lemma token_invalidate_gather dbg stray words : respects same_token (invalidate_gather dbg stray words).
Proof. unfold invalidate_gather, invalidate_append. frame. Qed.

Lemma token_invalidate_delete dbg stray g rv : respects same_token (invalidate_delete dbg stray g rv).
Proof.
  unfold invalidate_delete, invalidate_delete_append, invalidate_delete_replies,
    invalidate_exec, appendCommandArgv, mxb_assert_that, elements, element, for_,
    MXS_ERROR.
  frame.
Qed.

#[local] Hint Resolve token_put_value_append token_put_value_replies
  token_invalidate_gather token_invalidate_delete : frame.

Lemma jobs_post_to_creator dbg stray op : posts_to_creator (snd (issue dbg stray op)).
Proof.
  destruct op as [rkey|rkey words pValue|rkey|words]; cbn [issue snd get_value put_value
    del_value invalidate].
  - unfold get_value_job. apply posts_bind; [unfold command; frame|intros reply].
    apply posts_bind; [|intros; apply posts_final].
    unfold len, str, MXS_WARNING. frame.
  - unfold put_value_job. apply posts_bind; [frame|intros _].
    apply posts_bind; [frame|intros; apply posts_final].
  - unfold del_value_job. apply posts_bind; [unfold command; frame|intros reply].
    apply posts_bind; [|intros; apply posts_final].
    unfold integer, MXS_WARNING. frame.
  - unfold invalidate_job. apply posts_bind; [frame|intros g].
    apply posts_bind; [frame|intros; apply posts_final].
Qed.

Lemma run_delivery_calls_once use_count w d :
  (List.length (filter is_callback (map (pair (worker_thread w)) (run_delivery use_count d)))
   <= 1)%nat.
Proof. destruct d; simpl; destruct (1 <? use_count); simpl; lia. Qed.

(** C9.  Take a token constructed on the worker [current], and any of its
    four operations, whatever the server replies, whichever thread of the
    pool runs the job, and whatever the use count of the token is when the
    delivery runs.  Every call of the user callback happens on the thread
    of [current], and there is at most one. *)
Theorem callback_on_creating_worker dbg stray op current pRedis ttl log id use_count :
  let token := RedisToken_new current pRedis ttl in
  let trace := run_operation dbg stray op (mkEnv token log) id use_count in
  (forall x, In x trace -> is_callback x = true -> fst x = worker_thread current)
  /\ (List.length (filter is_callback trace) <= 1)%nat.
Proof.
  intros token trace. subst trace. unfold run_operation.
  destruct (snd (issue dbg stray op) (mkEnv token log)) as [[p|f] e'] eqn:H; simpl.
  - apply jobs_post_to_creator in H. simpl in H. unfold Worker_run. rewrite H. split.
    + intros x [<-|Hin] Hcb; [discriminate|].
      apply in_map_iff in Hin. destruct Hin as (ev & <- & _). reflexivity.
    + apply run_delivery_calls_once.
  - split; [intros x [<-|[]] Hcb; discriminate|lia].
Qed.

(** ** RedisStorage::create *)

Lemma new_fields name config host port :
  RedisStorage.m_host (fst (RedisStorage.new name config host port)) = host
  /\ RedisStorage.m_port (fst (RedisStorage.new name config host port)) = port
  /\ RedisStorage.m_ttl (fst (RedisStorage.new name config host port))
     = RedisStorage.hard_ttl config.
Proof.
  unfold RedisStorage.new; simpl. repeat split.
  destruct (RedisStorage.hard_ttl config =? 0) eqn:H; [|reflexivity].
  apply Z.eqb_eq in H. now rewrite H.
Qed.

(** C4, as the code has it.  With [vs] the fields [mxb::strtok] cuts the
    argument into at the colons: [create] returns null exactly when [vs]
    does not have two entries, or [mxb::get_int] rejects the second, or the
    integer it reads is not greater than 0; a null return comes with a line
    at error level in the log; and for every argument of two fields whose
    second is read as an integer greater than 0, however large, [create]
    returns a storage with that host, that port and the hard ttl of the
    configuration. *)
Theorem create_null_iff strtok get_int name config arguments :
  let vs := strtok arguments ":"%string in
  let r := RedisStorage.create strtok get_int name config arguments in
  (fst r = None
   <-> (List.length vs <> 2%nat
        \/ get_int (nth 1 vs ""%string) = None
        \/ exists port, get_int (nth 1 vs ""%string) = Some port /\ port <= 0))
  /\ (fst r = None -> exists msg, In (mkLog LOG_ERR msg) (snd r))
  /\ (forall port,
        List.length vs = 2%nat -> get_int (nth 1 vs ""%string) = Some port -> 0 < port ->
        exists storage,
          fst r = Some storage
          /\ RedisStorage.m_host storage = nth 0 vs ""%string
          /\ RedisStorage.m_port storage = port
          /\ RedisStorage.m_ttl storage = RedisStorage.hard_ttl config).
Proof.
  intros vs r. subst r. unfold RedisStorage.create. fold vs.
  destruct (List.length vs =? 2)%nat eqn:Hlen.
  - apply Nat.eqb_eq in Hlen.
    destruct (get_int (nth 1 vs ""%string)) as [port|] eqn:Hint.
    + destruct (0 <? port) eqn:Hpos.
      * apply Z.ltb_lt in Hpos.
        destruct (RedisStorage.new name config (nth 0 vs ""%string) port)
          as [storage log'] eqn:Hnew.
        pose proof (new_fields name config (nth 0 vs ""%string) port) as Hf.
        rewrite Hnew in Hf. simpl in Hf. simpl. repeat split.
        -- discriminate.
        -- intros [H|[H|(p & H & Hp)]]; [congruence|discriminate|].
           inversion H; subst. lia.
        -- discriminate.
        -- intros p _ Hp _. inversion Hp; subst. exists storage. tauto.
      * apply Z.ltb_ge in Hpos. simpl. repeat split.
        -- intros _. right. right. exists port. now split.
        -- intros _. eexists. apply in_or_app. right. left. reflexivity.
        -- intros p _ Hp Hlt. inversion Hp; subst. lia.
    + simpl. repeat split.
      * intros _. right. now left.
      * intros _. eexists. apply in_or_app. right. left. reflexivity.
      * intros p _ Hp. discriminate.
  - apply Nat.eqb_neq in Hlen. simpl. repeat split.
    + intros _. now left.
    + intros _. eexists. apply in_or_app. right. left. reflexivity.
    + intros p H. congruence.
Qed.

(** C4, the claim refuted.  The port 70000 is outside (0, 65535], and
    [create] returns a storage for it. *)
Lemma create_accepts_port_70000 :
  let r := RedisStorage.create RedisStorage.spec_strtok RedisStorage.spec_get_int
             "redis" (RedisStorage.mkConfig 0 0 0 0) "h:70000" in
  (exists storage,
     fst r = Some storage
     /\ RedisStorage.m_host storage = "h"%string
     /\ RedisStorage.m_port storage = 70000)
  /\ snd r = []
  /\ 65535 < 70000.
Proof.
  simpl. split; [|split; [reflexivity|lia]].
  eexists. split; [reflexivity|]. split; reflexivity.
Qed.

(** * Further properties *)

(** ** expect_status and expect_n_status, read by read *)

Lemma getReply_eq cmds rs w ttl log :
  getReply (env_of cmds rs w ttl log)
  = (Val (next_read rs), env_of cmds (tl rs) w ttl log).
Proof. now destruct rs. Qed.

Lemma expect_status_eq dbg v c cmds rs w ttl log :
  expect_status dbg v c (env_of cmds rs w ttl log)
  = (Val (accepts v (next_read rs)),
     env_of cmds (tl rs) w ttl (log ++ status_line v (next_read rs))).
Proof.
  unfold expect_status, accepts.
  destruct rs as [|[[]|] rest]; destruct dbg; run;
    rewrite ?app_nil_r; try reflexivity;
    match goal with |- context [strcmp_eq0 ?a ?b] => destruct (strcmp_eq0 a b) end;
    simpl; rewrite ?app_nil_r; reflexivity.
Qed.

Lemma reads_step n rs :
  reads (S n) rs = next_read rs :: reads n (tl rs).
Proof.
  destruct rs; unfold reads; simpl; [|reflexivity].
  now rewrite firstn_nil, Nat.sub_0_r.
Qed.

Lemma skipn_tl {A} n (l : list A) : skipn n (tl l) = skipn (S n) l.
Proof. destruct l; simpl; [now destruct n|reflexivity]. Qed.

Lemma expect_n_status_from_eq dbg v c n : forall rv cmds rs w ttl log,
  expect_n_status_from dbg n v c rv (env_of cmds rs w ttl log)
  = (Val (forallb (accepts v) (reads n rs) && rv),
     env_of cmds (skipn n rs) w ttl (log ++ flat_map (status_line v) (reads n rs))).
Proof.
  induction n as [|n IH]; intros rv cmds rs w ttl log.
  - simpl. unfold ret, reads. simpl. now rewrite app_nil_r.
  - cbn [expect_n_status_from].
    rewrite (bind_val _ _ _ _ _ (expect_status_eq dbg v c cmds rs w ttl log)).
    rewrite IH, reads_step, skipn_tl. simpl. rewrite <- app_assoc.
    destruct (accepts v (next_read rs)); simpl; [reflexivity|].
    now rewrite andb_false_r.
Qed.

Lemma expect_n_status_eq dbg n v c cmds rs w ttl log :
  expect_n_status dbg n v c (env_of cmds rs w ttl log)
  = (Val (forallb (accepts v) (reads n rs)),
     env_of cmds (skipn n rs) w ttl (log ++ flat_map (status_line v) (reads n rs))).
Proof.
  unfold expect_n_status. rewrite expect_n_status_from_eq. now rewrite andb_true_r.
Qed.

(** X1.  [expect_n_status(n, value, context)] takes the next [n] reads off
    the connection, whatever they are, in debug and release builds alike,
    and never stops the job.  It returns [true] exactly when none of
    those reads failed or gave a Status other than [value]: a reply that
    is not a Status at all counts as a match.  It logs one line at error
    level for every read that is not a Status equal to [value], in the
    order of the reads. *)
Theorem expect_n_status_reads dbg n v c cmds rs w ttl log :
  expect_n_status dbg n v c (env_of cmds rs w ttl log)
  = (Val (forallb (accepts v) (reads n rs)),
     env_of cmds (skipn n rs) w ttl (log ++ flat_map (status_line v) (reads n rs))).
Proof. exact (expect_n_status_eq dbg n v c cmds rs w ttl log). Qed.

(** ** The pending reads across computations that do not read *)

Lemma same_pending_refl e : same_pending e e.
Proof. reflexivity. Qed.

Lemma same_pending_trans e1 e2 e3 :
  same_pending e1 e2 -> same_pending e2 e3 -> same_pending e1 e3.
Proof. unfold same_pending; congruence. Qed.

Lemma pending_appendCommand c : respects same_pending (appendCommand c).
Proof. intros e; reflexivity. Qed.

Lemma pending_log l msg : respects same_pending (log_message l msg).
Proof. intros e; reflexivity. Qed.

Lemma pending_get_this : respects same_pending get_this.
Proof. intros e; reflexivity. Qed.

Lemma pending_assert dbg b : respects same_pending (mxb_assert dbg b).
Proof. intros e; now destruct dbg, b. Qed.

#[local] Hint Resolve pending_appendCommand pending_log pending_get_this
  pending_assert : frame.

Ltac frame_pending :=
  repeat first
    [ exact same_pending_refl | exact same_pending_trans
    | solve [auto with frame]
    | apply respects_ret
    | apply respects_fail
    | apply respects_bind
    | apply respects_for_each
    | apply respects_for_from
    | match goal with
      | |- respects _ (match ?x with _ => _ end) => destruct x
      end
    | progress intros ].

Lemma pending_put_value_exec dbg stray n rv reply :
  respects same_pending (put_value_exec dbg stray n rv reply).
Proof.
  unfold put_value_exec, mxb_assert_that, elements, element, str, for_,
    MXS_ERROR, MXS_WARNING.
  frame_pending.
Qed.

Lemma pending_invalidate_exec dbg stray size rv reply :
  respects same_pending (invalidate_exec dbg stray size rv reply).
Proof.
  unfold invalidate_exec, mxb_assert_that, elements, element, for_, MXS_ERROR.
  frame_pending.
Qed.

Lemma sent_put_value_exec dbg stray n rv reply :
  respects same_sent (put_value_exec dbg stray n rv reply).
Proof.
  unfold put_value_exec, mxb_assert_that, elements, element, str, for_,
    MXS_ERROR, MXS_WARNING.
  frame.
Qed.

Lemma sent_invalidate_exec dbg stray size rv reply :
  respects same_sent (invalidate_exec dbg stray size rv reply).
Proof.
  unfold invalidate_exec, mxb_assert_that, elements, element, for_, MXS_ERROR.
  frame.
Qed.

(** The end of every job leaves the state as the computation of the
    result left it. *)
Lemma snd_post {A} (m : M A) (d : A -> delivery) e :
  snd ((a <- m ;; this <- get_this ;; Worker_execute (m_pWorker this) (d a)) e)
  = snd (m e).
Proof. unfold bind. now destruct (m e) as [[a|f] e1]. Qed.

Lemma tl_skipn {A} n : forall l : list A, tl (skipn n l) = skipn (S n) l.
Proof.
  induction n as [|n IH]; intros l; [reflexivity|].
  destruct l; [reflexivity|]. simpl. rewrite IH. reflexivity.
Qed.

(** ** put_value: what it reads *)

Lemma sent_env_of cmds rs w ttl log : sent (env_of cmds rs w ttl log) = cmds.
Proof. reflexivity. Qed.

Lemma pending_env_of cmds rs w ttl log : pending (env_of cmds rs w ttl log) = rs.
Proof. reflexivity. Qed.

Lemma put_value_replies_eq dbg stray n cmds rs w ttl log :
  put_value_replies dbg stray n (env_of cmds rs w ttl log)
  = if accepts "OK" (next_read rs) then
      put_value_exec dbg stray n CACHE_RESULT_OK (next_read (skipn (n + 2) rs))
        (env_of cmds (skipn (n + 3) rs) w ttl
           ((log ++ status_line "OK" (next_read rs))
            ++ flat_map (status_line "QUEUED") (reads (n + 1) (tl rs))))
    else
      (Val CACHE_RESULT_OK,
       env_of cmds (tl rs) w ttl
         ((log ++ status_line "OK" (next_read rs))
          ++ [mkLog LOG_ERR "Failed when reading response to MULTI: %s, %s"])).
Proof.
  unfold put_value_replies.
  rewrite (bind_val _ _ _ _ _ (expect_status_eq dbg "OK" _ cmds rs w ttl log)).
  destruct (accepts "OK" (next_read rs)).
  - rewrite (bind_val _ _ _ _ _ (expect_n_status_eq dbg (n + 1) "QUEUED" _ _ _ _ _ _)).
    rewrite (bind_val _ _ _ _ _ (getReply_eq _ _ _ _ _)).
    rewrite tl_skipn, !skipn_tl.
    replace (S (S (n + 1))) with (n + 3)%nat by lia.
    replace (S (n + 1)) with (n + 2)%nat by lia. reflexivity.
  - reflexivity.
Qed.

(** X2.  [put_value] takes reads off the connection as follows, however
    the job ends: when [expect_status] accepts the reply to [MULTI], the
    [|W| + 3] replies to the [|W| + 3] commands it appended; otherwise only
    that one, so that the replies to the other [|W| + 2] commands stay on
    the connection for the next operation of the token. *)
Theorem put_value_reads dbg stray rkey words pValue e :
  pending (snd (snd (put_value dbg stray rkey words pValue) e))
  = skipn (if accepts "OK" (next_read (pending e)) then List.length words + 3 else 1)
          (pending e).
Proof.
  unfold put_value. cbn [snd]. rewrite (env_eta e) at 1.
  rewrite put_value_job_eq, snd_post, put_value_replies_eq.
  destruct (accepts "OK" (next_read (pending e))).
  - rewrite (pending_put_value_exec dbg stray _ _ _ _). reflexivity.
  - simpl. now destruct (pending e).
Qed.

(** ** put_value against a server that follows the protocol *)

Lemma integers_checked dbg stray els n : forall i e,
  (i + n <= List.length els)%nat ->
  (forall k el, (i <= k < i + n)%nat -> nth_error els k = Some el -> is_integer el = true) ->
  for_from i n
    (fun i => el <- element dbg stray (REDIS_REPLY_ARRAY els) i ;; mxb_assert dbg (is_integer el)) e
  = (Val tt, e).
Proof.
  induction n as [|n IH]; intros i e Hi Hall; simpl; [reflexivity|].
  assert (Hlt : (i < List.length els)%nat) by lia.
  assert (Hb : (i <? List.length els)%nat = true) by now apply Nat.ltb_lt.
  destruct (nth_error els i) as [el|] eqn:Hel;
    [|apply nth_error_Some in Hlt; congruence].
  assert (Hint : is_integer el = true) by (apply (Hall i); [lia|assumption]).
  assert (Hstep : (el <- element dbg stray (REDIS_REPLY_ARRAY els) i ;;
                   mxb_assert dbg (is_integer el)) e = (Val tt, e)).
  { destruct dbg; run; rewrite ?Hb, Hel; simpl; rewrite ?Hint; reflexivity. }
  rewrite (bind_val _ _ _ _ _ Hstep). apply IH; [lia|].
  intros k el' Hk. apply Hall. lia.
Qed.

Lemma put_value_exec_OK dbg stray counts e :
  put_value_exec dbg stray (List.length counts) CACHE_RESULT_OK
    (Some (REDIS_REPLY_ARRAY (map REDIS_REPLY_INTEGER counts ++ [REDIS_REPLY_STATUS "OK"]))) e
  = (Val CACHE_RESULT_OK, e).
Proof.
  set (els := map REDIS_REPLY_INTEGER counts ++ [REDIS_REPLY_STATUS "OK"]).
  assert (Hlen : List.length els = S (List.length counts)).
  { unfold els. rewrite length_app, length_map. simpl. lia. }
  assert (Hints : forall k el, (0 <= k < 0 + List.length counts)%nat ->
                    nth_error els k = Some el -> is_integer el = true).
  { intros k el Hk Hel. unfold els in Hel.
    rewrite nth_error_app1 in Hel by (rewrite length_map; lia).
    apply nth_error_In, in_map_iff in Hel. destruct Hel as (z & <- & _). reflexivity. }
  assert (Hlast : nth_error els (List.length counts) = Some (REDIS_REPLY_STATUS "OK")).
  { unfold els. rewrite nth_error_app2 by (rewrite length_map; lia).
    rewrite length_map, Nat.sub_diag. reflexivity. }
  assert (Hloop := integers_checked dbg stray els (List.length counts) 0 e ltac:(lia) Hints).
  assert (Hb : (List.length counts <? List.length els)%nat = true)
    by (apply Nat.ltb_lt; lia).
  assert (Heq : (List.length els =? List.length counts + 1)%nat = true)
    by (apply Nat.eqb_eq; lia).
  unfold put_value_exec. fold els.
  destruct dbg.
  - rewrite (bind_val _ _ _ tt e) by reflexivity.
    rewrite (bind_val _ _ _ tt e) by (run; rewrite Heq; reflexivity).
    unfold for_. rewrite (bind_val _ _ _ _ _ Hloop).
    run. rewrite Hb, Hlast. reflexivity.
  - run. rewrite Hlast. reflexivity.
Qed.

Lemma reads_repeat {r : option redisReply} n rest :
  reads n (repeat r n ++ rest) = repeat r n.
Proof.
  unfold reads. rewrite firstn_app, repeat_length, Nat.sub_diag, firstn_O, app_nil_r.
  rewrite firstn_all2 by (rewrite repeat_length; lia).
  rewrite length_app, repeat_length.
  replace (n - (n + List.length rest))%nat with 0%nat by lia. now rewrite app_nil_r.
Qed.

Lemma skipn_repeat {A} (r : A) n rest : skipn n (repeat r n ++ rest) = rest.
Proof.
  rewrite skipn_app, repeat_length, Nat.sub_diag, skipn_all2 by (rewrite repeat_length; lia).
  reflexivity.
Qed.

Lemma queued_accepted n :
  forallb (accepts "QUEUED") (repeat (Some (REDIS_REPLY_STATUS "QUEUED")) n) = true
  /\ flat_map (status_line "QUEUED") (repeat (Some (REDIS_REPLY_STATUS "QUEUED")) n) = [].
Proof. induction n as [|n [IH1 IH2]]; simpl; [now split|]. now rewrite IH1, IH2. Qed.

Lemma protocol_skip {A} n (a q x : A) rest :
  skipn (S (S n)) (a :: repeat q (S n) ++ [x] ++ rest) = x :: rest.
Proof.
  change (skipn (S (S n)) (a :: repeat q (S n) ++ [x] ++ rest))
    with (skipn (S n) (repeat q (S n) ++ [x] ++ rest)).
  now rewrite skipn_repeat.
Qed.

Lemma protocol_skip_all {A} n (a q x : A) rest :
  skipn (S (S (S n))) (a :: repeat q (S n) ++ [x] ++ rest) = rest.
Proof.
  rewrite <- tl_skipn. now rewrite protocol_skip.
Qed.

(** X3.  Against a server that follows the protocol, [put_value] posts
    [CACHE_RESULT_OK] to the token's worker, in debug and release builds:
    the reply to [MULTI] is OK, each of the [|W| + 1] queued commands is
    answered QUEUED, and the reply to [EXEC] holds one Integer per [HSET]
    and the OK of the [SET].  The job then has appended its [|W| + 3]
    commands, has read exactly these replies, and has logged nothing. *)
Theorem put_value_transaction_OK dbg stray rkey words pValue counts cmds rest w ttl log :
  List.length counts = List.length words ->
  snd (put_value dbg stray rkey words pValue)
    (env_of cmds (put_value_protocol counts ++ rest) w ttl log)
  = (Val (mkPost w (deliver_put pValue CACHE_RESULT_OK)),
     env_of (cmds ++ Format "MULTI" [] :: map (HSET rkey) words
                  ++ [SET_PX rkey (GWBUF_DATA pValue) ttl; Format "EXEC" []])
            rest w ttl log).
Proof.
  intros Hlen. unfold put_value, gwbuf_clone. cbn [snd].
  rewrite put_value_job_eq. unfold put_value_protocol.
  rewrite <- Hlen.
  unfold bind at 1. rewrite put_value_replies_eq.
  cbn [app next_read hd tl].
  change (accepts "OK" (Some (REDIS_REPLY_STATUS "OK"))) with true.
  change (status_line "OK" (Some (REDIS_REPLY_STATUS "OK"))) with (@nil log_entry).
  cbv iota.
  replace (List.length counts + 1)%nat with (S (List.length counts)) by lia.
  replace (List.length counts + 2)%nat with (S (S (List.length counts))) by lia.
  replace (List.length counts + 3)%nat with (S (S (S (List.length counts)))) by lia.
  rewrite <- !app_assoc, reads_repeat.
  destruct (queued_accepted (S (List.length counts))) as [_ ->].
  rewrite (protocol_skip (List.length counts)), (protocol_skip_all (List.length counts)).
  cbn [next_read hd app].
  rewrite !app_nil_r. rewrite put_value_exec_OK. reflexivity.
Qed.

(** The theorem at work: a put under two words. *)
Lemma put_value_transaction_OK_witness :
  snd (put_value true faults "q2" ["t1"; "t2"]%string (gwbuf "B" None))
    (env_of [] (put_value_protocol [1; 1] ++ []) 3%nat 1000 [])
  = (Val (mkPost 3%nat (deliver_put (gwbuf "B" None) CACHE_RESULT_OK)),
     env_of ([] ++ Format "MULTI" [] :: map (HSET "q2") ["t1"; "t2"]%string
                ++ [SET_PX "q2" (GWBUF_DATA (gwbuf "B" None)) 1000; Format "EXEC" []])
            [] 3%nat 1000 []).
Proof.
  exact (put_value_transaction_OK true faults "q2" ["t1"; "t2"]%string (gwbuf "B" None)
           [1; 1] [] [] 3%nat 1000 [] eq_refl).
Defined.

(** ** The results a callback can receive *)

Lemma returns_ret {A} (Q : A -> Prop) a : Q a -> returns Q (ret a).
Proof. intros H e a' e' E. inversion E; subst. exact H. Qed.

Lemma returns_fail {A} (Q : A -> Prop) f : returns Q (@fail A f).
Proof. intros e a e' E. discriminate. Qed.

Lemma returns_bind {A B} (Q : B -> Prop) (m : M A) (k : A -> M B) :
  (forall a, returns Q (k a)) -> returns Q (bind m k).
Proof.
  intros Hk e b e' E. unfold bind in E.
  destruct (m e) as [[a|f] e1]; [eapply Hk, E|discriminate].
Qed.


Ltac returns_cases :=
  repeat first
    [ apply returns_ret; solve [auto]
    | apply returns_fail
    | apply returns_bind; intros
    | match goal with
      | |- returns _ (match ?x with _ => _ end) => destruct x
      end ].



Lemma returns_post (Q : cache_result_t -> Prop) (d : cache_result_t -> delivery) rv :
  Q (delivered (d rv)) ->
  returns (fun p => Q (delivered (task p)))
    (this <- get_this ;; Worker_execute (m_pWorker this) (d rv)).
Proof. intros H e p e' E. run. inversion E; subst. exact H. Qed.


(** ** invalidate, Phase A: the vectors it builds *)

Lemma gather_field_eq dbg stray l p j cmds rs w ttl log :
  (j < List.length l)%nat ->
  gather_field dbg stray (REDIS_REPLY_ARRAY l) p j (env_of cmds rs w ttl log)
  = (Val (fst p ++ field_key l j, snd p ++ field_key l j),
     env_of cmds rs w ttl (log ++ field_line l j)).
Proof.
  intros Hj. unfold gather_field, field_key, field_line.
  assert (Hb : (j <? List.length l)%nat = true) by now apply Nat.ltb_lt.
  apply nth_error_Some in Hj.
  destruct (nth_error l j) as [el|] eqn:Hel; [|congruence].
  destruct p as [d h].
  destruct dbg; run; rewrite ?Hb, Hel; destruct el; simpl;
    rewrite ?app_nil_r, ?substring_all; reflexivity.
Qed.

Lemma gather_fields_eq dbg stray l js : forall p cmds rs w ttl log,
  (forall j, In j js -> (j < List.length l)%nat) ->
  for_each js (gather_field dbg stray (REDIS_REPLY_ARRAY l)) p (env_of cmds rs w ttl log)
  = (Val (fst p ++ flat_map (field_key l) js, snd p ++ flat_map (field_key l) js),
     env_of cmds rs w ttl (log ++ flat_map (field_line l) js)).
Proof.
  induction js as [|j js IH]; intros p cmds rs w ttl log Hjs.
  - simpl. unfold ret. rewrite !app_nil_r. now destruct p.
  - cbn [for_each].
    rewrite (bind_val _ _ _ _ _ (gather_field_eq dbg stray l p j cmds rs w ttl log
                                   (Hjs j (or_introl eq_refl)))).
    rewrite IH by (intros j' Hj'; apply Hjs; now right).
    cbn [fst snd flat_map]. now rewrite <- !app_assoc.
Qed.

Lemma gather_word_eq dbg stray acc word cmds rs w ttl log :
  gather_word dbg stray acc word (env_of cmds rs w ttl log)
  = (Val (gather_step acc word (next_read rs)),
     env_of cmds (tl rs) w ttl (log ++ gather_lines (next_read rs))).
Proof.
  unfold gather_word.
  rewrite (bind_val _ _ _ _ _ (getReply_eq cmds rs w ttl log)).
  destruct (next_read rs) as [reply|].
  - destruct reply as [|l| | | |];
      try (run; rewrite app_nil_r; reflexivity).
    cbn [is_array].
    assert (Hm : forall e, elements dbg (REDIS_REPLY_ARRAY l) e = (Val (List.length l), e)).
    { intros e. unfold elements; simpl.
      now rewrite (bind_val _ _ _ _ _ (mxb_assert_true dbg e)). }
    unfold bind at 1. unfold bind at 1. rewrite Hm.
    unfold bind at 1.
    rewrite (gather_fields_eq dbg stray l (every_second (List.length l)) _ cmds (tl rs) w ttl log
               (every_second_lt _)).
    reflexivity.
  - run. reflexivity.
Qed.

Lemma gather_words_eq dbg stray words : forall acc cmds rs w ttl log,
  for_each words (gather_word dbg stray) acc (env_of cmds rs w ttl log)
  = (Val (gather_from acc words rs),
     env_of cmds (skipn (List.length words) rs) w ttl
       (log ++ flat_map gather_lines (reads (List.length words) rs))).
Proof.
  induction words as [|word words IH]; intros acc cmds rs w ttl log.
  - simpl. unfold ret, reads. simpl. now rewrite app_nil_r.
  - cbn [for_each].
    rewrite (bind_val _ _ _ _ _ (gather_word_eq dbg stray acc word cmds rs w ttl log)).
    rewrite IH. cbn [List.length gather_from].
    rewrite reads_step, skipn_tl. cbn [flat_map]. now rewrite <- app_assoc.
Qed.

Lemma invalidate_gather_eq dbg stray words cmds rs w ttl log :
  invalidate_gather dbg stray words (env_of cmds rs w ttl log)
  = (Val (gathered_keys words rs),
     env_of (cmds ++ map HGETALL words) (skipn (List.length words) rs) w ttl
       (log ++ flat_map gather_lines (reads (List.length words) rs))).
Proof.
  unfold invalidate_gather.
  rewrite (bind_val _ _ _ _ _ (invalidate_append_eq dbg words cmds rs w ttl log)).
  apply gather_words_eq.
Qed.

(** X5.  Phase A of [invalidate] never stops the job, in debug and release
    builds.  It appends one [HGETALL] per word, in order, and takes one
    read per word.  For every word whose reply is an Array it adds to
    [hdel_argvs] the vector [HDEL word k1 k2 ...] of the String elements
    at the even indices of the reply, and the same keys to [del_argv],
    which starts as [DEL]; an element at an even index that is not a
    String is skipped with a line in the log.  A reply that is not an
    Array adds nothing, a read that fails adds nothing but a line in the
    log. *)
Theorem invalidate_gather_keys dbg stray words cmds rs w ttl log :
  invalidate_gather dbg stray words (env_of cmds rs w ttl log)
  = (Val (gathered_keys words rs),
     env_of (cmds ++ map (fun word => Format "HGETALL %b" [arg_b word]) words)
            (skipn (List.length words) rs) w ttl
            (log ++ flat_map gather_lines (reads (List.length words) rs))).
Proof. exact (invalidate_gather_eq dbg stray words cmds rs w ttl log). Qed.

(** *** What the vectors always satisfy *)

Lemma keys_empty_iff (hs : list (list string)) :
  (1 <? List.length ("DEL"%string :: flat_map (skipn 2) hs))%nat = existsb has_keys hs.
Proof.
  induction hs as [|a hs IH]; [reflexivity|].
  cbn [flat_map existsb]. unfold has_keys at 1.
  destruct (2 <? List.length a)%nat eqn:Ha.
  - apply Nat.ltb_lt in Ha. cbn [orb]. apply Nat.ltb_lt.
    cbn [List.length]. rewrite length_app, length_skipn. lia.
  - apply Nat.ltb_ge in Ha. cbn [orb]. rewrite <- IH.
    rewrite (skipn_all2 a) by exact Ha. reflexivity.
Qed.

Lemma gather_step_ok words word acc r :
  In word words -> gathered_ok words acc -> gathered_ok words (gather_step acc word r).
Proof.
  intros Hin (Hd & Hh & Hl). destruct r as [[|l| | | |]|]; unfold gathered_ok; simpl;
    rewrite ?length_app; simpl; repeat split; try assumption; try lia.
  - rewrite Hd, flat_map_app. simpl. now rewrite app_nil_r.
  - apply Forall_app. split; [assumption|]. constructor; [|constructor].
    exists word. now split.
Qed.

Lemma gather_from_ok all words : forall acc rs,
  incl words all -> gathered_ok all acc -> gathered_ok all (gather_from acc words rs).
Proof.
  induction words as [|word words IH]; intros acc rs Hincl Hacc; [exact Hacc|].
  cbn [gather_from]. apply IH.
  - intros x Hx. apply Hincl. now right.
  - apply gather_step_ok; [apply Hincl; now left|exact Hacc].
Qed.

Lemma gather_from_to_free words : forall acc rs,
  (List.length (to_free (gather_from acc words rs))
   <= List.length (to_free acc) + List.length words)%nat.
Proof.
  induction words as [|word words IH]; intros acc rs; cbn [gather_from List.length]; [lia|].
  specialize (IH (gather_step acc word (next_read rs)) (tl rs)).
  assert (List.length (to_free (gather_step acc word (next_read rs)))
          <= S (List.length (to_free acc)))%nat.
  { destruct (next_read rs) as [[|l| | | |]|]; simpl; rewrite ?length_app; simpl; lia. }
  lia.
Qed.

Lemma gathered_keys_ok words rs : gathered_ok words (gathered_keys words rs).
Proof.
  apply gather_from_ok; [apply incl_refl|].
  unfold gathered_ok. simpl. repeat split; [constructor|lia].
Qed.

(** X6.  Whatever the server replies, the vectors Phase A of [invalidate]
    ends with fit together: [del_argv] is [DEL] followed by the keys of
    all the [HDEL] vectors, in their order, so every key taken out of a
    hash is deleted as a value and no other key is; every [HDEL] vector
    starts with [HDEL] and one of the words; there is at most one such
    vector per reply kept and at most one reply kept per word.  Hence
    Phase B is sent ([del_argv] has more than one entry) exactly when some
    [HDEL] vector names a key. *)
Theorem invalidate_DEL_matches_HDEL dbg stray words e :
  exists g e1,
    invalidate_gather dbg stray words e = (Val g, e1)
    /\ del_argv g = "DEL"%string :: flat_map (skipn 2) (hdel_argvs g)
    /\ Forall (fun a => exists word, In word words /\ firstn 2 a = ["HDEL"; word]%string)
              (hdel_argvs g)
    /\ (List.length (hdel_argvs g) <= List.length (to_free g) <= List.length words)%nat
    /\ (1 <? List.length (del_argv g))%nat = existsb has_keys (hdel_argvs g).
Proof.
  rewrite (env_eta e). rewrite invalidate_gather_eq.
  do 2 eexists. split; [reflexivity|].
  destruct (gathered_keys_ok words (pending e)) as (Hd & Hh & Hl).
  repeat split; try assumption.
  - apply (gather_from_to_free words (mkGathered [] [] ["DEL"%string]) (pending e)).
  - rewrite Hd. apply keys_empty_iff.
Qed.

(** *** Hashes of fields and values *)

Lemma filter_even_shift l :
  filter Nat.even (map (fun j => S (S j)) l) = map (fun j => S (S j)) (filter Nat.even l).
Proof.
  induction l as [|j l IH]; [reflexivity|].
  cbn [map filter]. change (Nat.even (S (S j))) with (Nat.even j).
  destruct (Nat.even j); cbn [map]; now rewrite IH.
Qed.

Lemma every_second_SS n :
  every_second (S (S n)) = 0%nat :: map (fun j => S (S j)) (every_second n).
Proof.
  unfold every_second. cbn [seq filter Nat.even].
  rewrite <- filter_even_shift. f_equal. f_equal.
  rewrite <- seq_shift, <- seq_shift, map_map. reflexivity.
Qed.

Lemma hgetall_fields kvs :
  fields_of (flat_map (fun kv => [REDIS_REPLY_STRING (fst kv); REDIS_REPLY_STRING (snd kv)]) kvs)
  = map fst kvs
  /\ flat_map (field_line (flat_map (fun kv => [REDIS_REPLY_STRING (fst kv);
                                               REDIS_REPLY_STRING (snd kv)]) kvs))
       (every_second
          (List.length (flat_map (fun kv => [REDIS_REPLY_STRING (fst kv);
                                             REDIS_REPLY_STRING (snd kv)]) kvs)))
     = [].
Proof.
  unfold fields_of.
  induction kvs as [|[k v] kvs [IH1 IH2]]; [now split|].
  cbn [flat_map app List.length fst snd].
  rewrite every_second_SS. cbn [flat_map map].
  rewrite !flat_map_concat_map, !map_map in *.
  split.
  - cbn [field_key nth_error app]. f_equal. exact IH1.
  - cbn [field_line nth_error app]. exact IH2.
Qed.

Lemma gather_hashes wks : forall acc rest,
  gather_from acc (map fst wks)
    (map (fun wk => Some (hgetall_reply (snd wk))) wks ++ rest)
  = mkGathered
      (to_free acc ++ map (fun wk => hgetall_reply (snd wk)) wks)
      (hdel_argvs acc
       ++ map (fun wk => "HDEL"%string :: fst wk :: map fst (snd wk)) wks)
      (del_argv acc ++ flat_map (fun wk => map fst (snd wk)) wks)
  /\ flat_map gather_lines
       (reads (List.length (map fst wks))
          (map (fun wk => Some (hgetall_reply (snd wk))) wks ++ rest)) = []
  /\ skipn (List.length (map fst wks))
       (map (fun wk => Some (hgetall_reply (snd wk))) wks ++ rest) = rest.
Proof.
  induction wks as [|[word kvs] wks IH]; intros acc rest.
  - simpl. rewrite !app_nil_r. unfold reads. simpl. now destruct acc.
  - cbn [map fst snd app gather_from next_read hd tl List.length skipn].
    rewrite reads_step. cbn [next_read hd tl flat_map].
    destruct (IH (gather_step acc word (Some (hgetall_reply kvs))) rest)
      as (-> & -> & ->).
    destruct (hgetall_fields kvs) as [Hf Hl].
    unfold hgetall_reply. cbn [gather_step gather_lines to_free hdel_argvs del_argv].
    rewrite Hf, Hl. cbn [app flat_map]. rewrite <- !app_assoc. now split.
Qed.

(** X7.  When the reply to every [HGETALL] is the Array of the fields and
    values of a hash, Phase A of [invalidate] ends with one [HDEL] vector
    per word, holding the word and the fields of its hash in the order of
    the reply, with [DEL] followed by all those fields, with every reply
    kept in [to_free], and with nothing logged; the values are not
    looked at. *)
Theorem invalidate_gather_hashes dbg stray wks cmds rest w ttl log :
  invalidate_gather dbg stray (map fst wks)
    (env_of cmds (map (fun wk => Some (hgetall_reply (snd wk))) wks ++ rest) w ttl log)
  = (Val (mkGathered
            (map (fun wk => hgetall_reply (snd wk)) wks)
            (map (fun wk => "HDEL"%string :: fst wk :: map fst (snd wk)) wks)
            ("DEL"%string :: flat_map (fun wk => map fst (snd wk)) wks)),
     env_of (cmds ++ map HGETALL (map fst wks)) rest w ttl log).
Proof.
  rewrite invalidate_gather_eq. unfold gathered_keys.
  destruct (gather_hashes wks (mkGathered [] [] ["DEL"%string]) rest) as (-> & -> & ->).
  now rewrite app_nil_r.
Qed.

(** ** invalidate: what it sends and what it reads *)

Lemma invalidate_delete_replies_eq dbg stray size rv cmds rs w ttl log :
  invalidate_delete_replies dbg stray size rv (env_of cmds rs w ttl log)
  = if accepts "OK" (next_read rs) then
      invalidate_exec dbg stray size rv (next_read (skipn (size + 2) rs))
        (env_of cmds (skipn (size + 3) rs) w ttl
           ((log ++ status_line "OK" (next_read rs))
            ++ flat_map (status_line "QUEUED") (reads (size + 1) (tl rs))))
    else
      (Val CACHE_RESULT_ERROR,
       env_of cmds (tl rs) w ttl
         ((log ++ status_line "OK" (next_read rs))
          ++ [mkLog LOG_ERR ("Could not read MULTI reply from redis, the cache is now "
                             ++ "in an unknown state: %s, %s")%string])).
Proof.
  unfold invalidate_delete_replies.
  rewrite (bind_val _ _ _ _ _ (expect_status_eq dbg "OK" _ cmds rs w ttl log)).
  destruct (accepts "OK" (next_read rs)).
  - rewrite (bind_val _ _ _ _ _ (expect_n_status_eq dbg (size + 1) "QUEUED" _ _ _ _ _ _)).
    rewrite (bind_val _ _ _ _ _ (getReply_eq _ _ _ _ _)).
    rewrite tl_skipn, !skipn_tl.
    replace (S (S (size + 1))) with (size + 3)%nat by lia.
    replace (S (size + 1)) with (size + 2)%nat by lia. reflexivity.
  - reflexivity.
Qed.

Lemma invalidate_job_eq dbg stray words cmds rs w ttl log :
  invalidate_job dbg stray words (env_of cmds rs w ttl log)
  = let g := gathered_keys words rs in
    (rv <- (if (1 <? List.length (del_argv g))%nat then
              invalidate_delete dbg stray g CACHE_RESULT_OK
            else ret CACHE_RESULT_OK) ;;
     this <- get_this ;;
     Worker_execute (m_pWorker this) (deliver_result rv))
      (env_of (cmds ++ map HGETALL words) (skipn (List.length words) rs) w ttl
         (log ++ flat_map gather_lines (reads (List.length words) rs))).
Proof.
  unfold invalidate_job.
  now rewrite (bind_val _ _ _ _ _ (invalidate_gather_eq dbg stray words cmds rs w ttl log)).
Qed.

Lemma invalidate_delete_eq dbg stray g rv cmds rs w ttl log :
  invalidate_delete dbg stray g rv (env_of cmds rs w ttl log)
  = invalidate_delete_replies dbg stray (List.length (hdel_argvs g)) rv
      (env_of (cmds ++ delete_commands g) rs w ttl log).
Proof.
  unfold invalidate_delete.
  now rewrite (bind_val _ _ _ _ _ (invalidate_delete_append_eq dbg g cmds rs w ttl log)).
Qed.

Lemma sent_invalidate_delete_replies dbg stray size rv :
  respects same_sent (invalidate_delete_replies dbg stray size rv).
Proof.
  pose proof (sent_invalidate_exec dbg stray size rv).
  unfold invalidate_delete_replies, MXS_ERROR. frame.
Qed.

(** X8.  The commands [invalidate] appends are, in this order and
    whatever the server replies: one [HGETALL] per word; then, when
    Phase A found a key, [MULTI], one [HDEL] for each word whose reply
    held a key (none for a word whose reply was an Array without keys),
    one [DEL] with all the keys, and [EXEC]; and nothing more when it found
    none. *)
Theorem invalidate_command_order dbg stray words e :
  let g := gathered_keys words (pending e) in
  sent (snd (snd (invalidate dbg stray words) e))
  = sent e
    ++ map (fun word => Format "HGETALL %b" [arg_b word]) words
    ++ (if (1 <? List.length (del_argv g))%nat then
          [Format "MULTI" []]
          ++ map Argv (filter has_keys (hdel_argvs g))
          ++ [Argv (del_argv g); Format "EXEC" []]
        else []).
Proof.
  intros g. unfold invalidate. cbn [snd]. rewrite (env_eta e) at 1.
  rewrite invalidate_job_eq. cbv zeta. fold g. rewrite snd_post.
  destruct (1 <? List.length (del_argv g))%nat.
  - rewrite invalidate_delete_eq, (sent_invalidate_delete_replies dbg stray _ _ _).
    rewrite sent_env_of, <- app_assoc. reflexivity.
  - unfold ret. cbn [snd]. rewrite sent_env_of, app_nil_r. reflexivity.
Qed.

(** X9.  The reads [invalidate] takes off the connection, however the job
    ends: one per word in Phase A; then, when Phase A found a key and
    [expect_status] accepts the reply to [MULTI], [hdel_argvs.size() + 3]
    more, one for [MULTI], one for [EXEC] and one QUEUED for the [DEL]
    and for every Array reply of Phase A, with or without keys; when the
    reply to [MULTI] is not accepted, one more; when no key was found, no
    more. *)
Theorem invalidate_reads dbg stray words e :
  let g := gathered_keys words (pending e) in
  let rs := skipn (List.length words) (pending e) in
  pending (snd (snd (invalidate dbg stray words) e))
  = if (1 <? List.length (del_argv g))%nat then
      skipn (if accepts "OK" (next_read rs) then List.length (hdel_argvs g) + 3 else 1) rs
    else rs.
Proof.
  intros g rs. unfold invalidate. cbn [snd]. rewrite (env_eta e) at 1.
  rewrite invalidate_job_eq. cbv zeta. fold g. fold rs. rewrite snd_post.
  destruct (1 <? List.length (del_argv g))%nat.
  - rewrite invalidate_delete_eq, invalidate_delete_replies_eq.
    destruct (accepts "OK" (next_read rs)).
    + rewrite (pending_invalidate_exec dbg stray _ _ _ _). reflexivity.
    + simpl. now destruct rs.
  - reflexivity.
Qed.

(** ** invalidate against a server that follows the protocol *)

Lemma invalidate_exec_OK dbg stray counts size rv e :
  List.length counts = S size ->
  invalidate_exec dbg stray size rv (Some (REDIS_REPLY_ARRAY (map REDIS_REPLY_INTEGER counts))) e
  = (Val rv, e).
Proof.
  intros Hlen.
  set (els := map REDIS_REPLY_INTEGER counts).
  assert (Hl : List.length els = S size) by (unfold els; now rewrite length_map).
  assert (Hall : forallb is_integer els = true).
  { unfold els. apply forallb_forall. intros x Hx.
    apply in_map_iff in Hx. destruct Hx as (z & <- & _). reflexivity. }
  assert (Hb : (size <? List.length els)%nat = true) by (apply Nat.ltb_lt; lia).
  assert (Heq : (List.length els =? size + 1)%nat = true) by (apply Nat.eqb_eq; lia).
  destruct (nth_error els size) as [el|] eqn:Hel;
    [|apply nth_error_None in Hel; lia].
  assert (Hint : is_integer el = true).
  { apply nth_error_In in Hel. rewrite forallb_forall in Hall. now apply Hall. }
  unfold invalidate_exec. fold els.
  rewrite (bind_val _ _ _ _ _ (mxb_assert_true dbg _)).
  rewrite (bind_val _ _ _ tt e) by (destruct dbg; run; rewrite ?Heq; reflexivity).
  unfold for_.
  rewrite (bind_val _ _ _ _ _ (counts_checked dbg stray els size 0 e ltac:(lia) Hall)).
  destruct dbg; run; rewrite ?Hb, Hel; simpl; rewrite ?Hint; reflexivity.
Qed.

Lemma filter_has_keys wks :
  Forall (fun wk : string * list (string * string) => snd wk <> []) wks ->
  filter has_keys (map (fun wk => "HDEL"%string :: fst wk :: map fst (snd wk)) wks)
  = map (fun wk => "HDEL"%string :: fst wk :: map fst (snd wk)) wks.
Proof.
  induction 1 as [|[word kvs] wks Hk _ IH]; [reflexivity|].
  cbn [map filter fst snd]. rewrite IH.
  destruct kvs; [now contradiction Hk|reflexivity].
Qed.

Lemma with_keys_all wks :
  Forall (fun wk : string * list (string * string) => snd wk <> []) wks ->
  with_keys wks = wks.
Proof.
  induction 1 as [|[word kvs] wks Hk _ IH]; [reflexivity|].
  unfold with_keys in *. cbn [filter snd]. rewrite IH.
  destruct kvs; [now contradiction Hk|reflexivity].
Qed.

Lemma keys_found wks :
  Exists (fun wk : string * list (string * string) => snd wk <> []) wks ->
  (1 <? List.length ("DEL"%string :: flat_map (fun wk => map fst (snd wk)) wks))%nat = true.
Proof.
  intros Hk. apply Nat.ltb_lt. cbn [List.length].
  induction Hk as [[word kvs] wks Hkvs|wk wks _ IH]; cbn [flat_map]; rewrite length_app.
  - cbn [snd] in *. destruct kvs; [now contradiction Hkvs|]. simpl. lia.
  - lia.
Qed.

(** X10.  Against a server that follows the protocol, and for words that
    each have at least one key in their hash, [invalidate] posts
    [CACHE_RESULT_OK] to the token's worker, in debug and release builds.
    The commands it has appended are the [HGETALL]s, [MULTI], one
    [HDEL word k1 k2 ...] per word with the fields of its hash, one [DEL]
    with all the fields, and [EXEC]; it has read exactly the replies to
    these commands and has logged nothing. *)
Theorem invalidate_transaction_OK dbg stray wks counts cmds rest w ttl log :
  Forall (fun wk => snd wk <> []) wks -> wks <> [] ->
  List.length counts = S (List.length wks) ->
  snd (invalidate dbg stray (map fst wks))
    (env_of cmds (invalidate_protocol wks counts ++ rest) w ttl log)
  = (Val (mkPost w (deliver_result CACHE_RESULT_OK)),
     env_of (cmds
             ++ map (fun wk => Format "HGETALL %b" [arg_b (fst wk)]) wks
             ++ [Format "MULTI" []]
             ++ map (fun wk => Argv ("HDEL"%string :: fst wk :: map fst (snd wk))) wks
             ++ [Argv ("DEL"%string :: flat_map (fun wk => map fst (snd wk)) wks);
                 Format "EXEC" []])
            rest w ttl log).
Proof.
  intros Hk Hne Hlen. unfold invalidate. cbn [snd].
  rewrite invalidate_job_eq. cbv zeta.
  unfold invalidate_protocol, gathered_keys.
  rewrite (with_keys_all wks Hk), <- app_assoc.
  destruct (gather_hashes wks (mkGathered [] [] ["DEL"%string])
              ((Some (REDIS_REPLY_STATUS "OK")
                :: repeat (Some (REDIS_REPLY_STATUS "QUEUED")) (S (List.length wks))
                ++ [Some (REDIS_REPLY_ARRAY (map REDIS_REPLY_INTEGER counts))]) ++ rest))
    as (-> & -> & ->).
  cbn [to_free hdel_argvs del_argv app].
  assert (Hsome : Exists (fun wk => snd wk <> []) wks).
  { destruct wks as [|wk wks']; [now contradiction Hne|].
    left. now inversion Hk. }
  rewrite (keys_found wks Hsome).
  unfold bind at 1. rewrite invalidate_delete_eq, invalidate_delete_replies_eq.
  cbn [hdel_argvs del_argv next_read hd tl]. rewrite length_map.
  change (accepts "OK" (Some (REDIS_REPLY_STATUS "OK"))) with true.
  change (status_line "OK" (Some (REDIS_REPLY_STATUS "OK"))) with (@nil log_entry).
  cbv iota.
  replace (List.length wks + 1)%nat with (S (List.length wks)) by lia.
  replace (List.length wks + 2)%nat with (S (S (List.length wks))) by lia.
  replace (List.length wks + 3)%nat with (S (S (S (List.length wks)))) by lia.
  rewrite <- !app_assoc, reads_repeat.
  destruct (queued_accepted (S (List.length wks))) as [_ ->].
  rewrite (protocol_skip (List.length wks)), (protocol_skip_all (List.length wks)).
  cbn [next_read hd app].
  rewrite !app_nil_r, (invalidate_exec_OK dbg stray counts _ _ _ Hlen).
  unfold delete_commands. cbn [hdel_argvs del_argv].
  rewrite (filter_has_keys wks Hk), !map_map.
  run. rewrite <- ?app_assoc, ?map_map. reflexivity.
Qed.

(** The theorem at work: two words that share a key. *)
Lemma invalidate_transaction_OK_witness :
  snd (invalidate true faults (map fst [("t1", [("q1", "1"); ("q2", "1")]); ("t2", [("q2", "1")])]%string))
    (env_of []
       (invalidate_protocol
          [("t1", [("q1", "1"); ("q2", "1")]); ("t2", [("q2", "1")])]%string [2; 1; 2] ++ [])
       5%nat 1000 [])
  = (Val (mkPost 5%nat (deliver_result CACHE_RESULT_OK)),
     env_of [Format "HGETALL %b" [arg_b "t1"]; Format "HGETALL %b" [arg_b "t2"];
             Format "MULTI" [];
             Argv ["HDEL"; "t1"; "q1"; "q2"]%string; Argv ["HDEL"; "t2"; "q2"]%string;
             Argv ["DEL"; "q1"; "q2"; "q2"]%string;
             Format "EXEC" []]
            [] 5%nat 1000 []).
Proof.
  refine (invalidate_transaction_OK true faults
            [("t1", [("q1", "1"); ("q2", "1")]); ("t2", [("q2", "1")])]%string
            [2; 1; 2] [] [] 5%nat 1000 [] _ _ eq_refl).
  - repeat constructor; discriminate.
  - discriminate.
Defined.

(** *** A word without keys beside a word with keys *)

Lemma with_keys_fewer wks :
  Exists (fun wk : string * list (string * string) => snd wk = []) wks ->
  (List.length (with_keys wks) < List.length wks)%nat.
Proof.
  unfold with_keys. induction 1 as [[word kvs] wks Hkvs|wk wks _ IH].
  - cbn [snd] in Hkvs. subst kvs. cbn [filter snd List.length].
    pose proof (filter_length_le
                  (fun wk : string * list (string * string) =>
                     match snd wk with [] => false | _ :: _ => true end) wks).
    lia.
  - cbn [filter List.length]. destruct (snd wk); cbn [List.length]; lia.
Qed.

(** X11.  [invalidate] waits for one QUEUED per Array reply of Phase A,
    but appends an [HDEL] only for the words whose reply held a key.  So
    when it is called with a word whose hash is empty beside a word whose
    hash holds keys, and the server follows the protocol and the
    connection ends with the reply to [EXEC], the job takes the reply to
    [EXEC] for a QUEUED, finds no reply of its own to [EXEC], and posts
    [CACHE_RESULT_ERROR], in debug and release builds, although every
    command was answered. *)
Theorem invalidate_empty_hash_posts_ERROR dbg stray wks counts cmds w ttl log :
  Exists (fun wk => snd wk <> []) wks ->
  Exists (fun wk => snd wk = []) wks ->
  invalidate_result dbg stray (map fst wks)
    (env_of cmds (invalidate_protocol wks counts) w ttl log)
  = Val CACHE_RESULT_ERROR.
Proof.
  intros Hsome Hnone. unfold invalidate_result, invalidate, posted_result. cbn [snd].
  rewrite invalidate_job_eq. cbv zeta.
  unfold invalidate_protocol, gathered_keys.
  destruct (gather_hashes wks (mkGathered [] [] ["DEL"%string])
              (Some (REDIS_REPLY_STATUS "OK")
               :: repeat (Some (REDIS_REPLY_STATUS "QUEUED")) (S (List.length (with_keys wks)))
               ++ [Some (REDIS_REPLY_ARRAY (map REDIS_REPLY_INTEGER counts))]))
    as (-> & -> & ->).
  cbn [to_free hdel_argvs del_argv app]. rewrite (keys_found wks Hsome).
  unfold bind at 1. rewrite invalidate_delete_eq, invalidate_delete_replies_eq.
  cbn [hdel_argvs del_argv next_read hd tl]. rewrite length_map.
  change (accepts "OK" (Some (REDIS_REPLY_STATUS "OK"))) with true. cbv iota.
  pose proof (with_keys_fewer wks Hnone) as Hlt.
  rewrite (skipn_all2 (n := List.length wks + 2)).
  2:{ cbn [List.length]. rewrite length_app, repeat_length. cbn [List.length]. lia. }
  cbn [next_read hd]. unfold invalidate_exec. run. reflexivity.
Qed.

(** The theorem at work: [t1] holds a key, [t2] holds none. *)
Lemma invalidate_empty_hash_posts_ERROR_witness :
  invalidate_result true faults (map fst [("t1", [("q1", "1")]); ("t2", [])]%string)
    (env_of []
       (invalidate_protocol [("t1", [("q1", "1")]); ("t2", [])]%string [1; 1])
       5%nat 1000 [])
  = Val CACHE_RESULT_ERROR.
Proof.
  refine (invalidate_empty_hash_posts_ERROR true faults
            [("t1", [("q1", "1")]); ("t2", [])]%string [1; 1] [] 5%nat 1000 [] _ _).
  - left. discriminate.
  - right. left. reflexivity.
Defined.

(** ** RedisStorage: from the configuration to the token *)

Lemma create_ttl strtok get_int name config arguments storage :
  fst (RedisStorage.create strtok get_int name config arguments) = Some storage ->
  RedisStorage.m_ttl storage = RedisStorage.hard_ttl config
  /\ get_config storage = config
  /\ RedisStorage.m_name storage = name.
Proof.
  unfold RedisStorage.create.
  destruct (List.length (strtok arguments ":"%string) =? 2)%nat; [|discriminate].
  destruct (get_int _) as [port|]; [|discriminate].
  destruct (0 <? port); [|discriminate].
  pose proof (new_fields name config (nth 0 (strtok arguments ":"%string) ""%string) port)
    as (_ & _ & Httl).
  unfold RedisStorage.new in *. cbn [fst] in *. intros H. inversion H; subst.
  cbn [RedisStorage.m_ttl get_config RedisStorage.m_config RedisStorage.m_name] in *.
  now split.
Qed.

(** X12.  [create] logs the warning about a maximum size when
    [max_size] is not 0 and the warning about a maximum count when
    [max_count] is not 0, each once, in this order and whether or not it
    then returns a storage.  When it returns a storage the constructor
    adds the warning about the ttl exactly when the soft and the hard ttl
    differ, nothing else is logged, and [get_config] gives back the
    configuration that was passed in.  When it returns null, the warnings
    are followed by exactly one line at error level. *)
Theorem create_warnings strtok get_int name config arguments :
  let r := RedisStorage.create strtok get_int name config arguments in
  match fst r with
  | Some storage =>
      snd r = config_warnings config true
      /\ get_config storage = config
      /\ RedisStorage.m_name storage = name
  | None =>
      exists line,
        level line = LOG_ERR /\ snd r = config_warnings config false ++ [line]
  end.
Proof.
  cbv zeta.
  destruct (fst (RedisStorage.create strtok get_int name config arguments))
    as [storage|] eqn:E.
  - destruct (create_ttl _ _ _ _ _ _ E) as (_ & Hc & Hn). split; [|now split].
    revert E. unfold RedisStorage.create, config_warnings.
    destruct (List.length (strtok arguments ":"%string) =? 2)%nat; [|discriminate].
    destruct (get_int _) as [port|]; [|discriminate].
    destruct (0 <? port); [|discriminate].
    intros _. unfold RedisStorage.new. cbn [snd andb].
    destruct (RedisStorage.max_size config =? 0), (RedisStorage.max_count config =? 0),
      (RedisStorage.soft_ttl config =? RedisStorage.hard_ttl config); reflexivity.
  - revert E. unfold RedisStorage.create, config_warnings.
    destruct (List.length (strtok arguments ":"%string) =? 2)%nat.
    + destruct (get_int _) as [port|].
      * destruct (0 <? port); [discriminate|]. intros _.
        exists RedisStorage.bad_port_error. split; [reflexivity|]. cbn [snd andb].
        rewrite !app_nil_r.
        destruct (RedisStorage.max_size config =? 0), (RedisStorage.max_count config =? 0);
          reflexivity.
      * intros _.
        exists RedisStorage.bad_port_error. split; [reflexivity|]. cbn [snd andb].
        rewrite !app_nil_r.
        destruct (RedisStorage.max_size config =? 0), (RedisStorage.max_count config =? 0);
          reflexivity.
    + intros _.
      exists RedisStorage.bad_format_error. split; [reflexivity|]. cbn [snd andb].
      rewrite !app_nil_r.
      destruct (RedisStorage.max_size config =? 0), (RedisStorage.max_count config =? 0);
        reflexivity.
Qed.

(** X13.  The hard ttl of the configuration is the ttl of every [SET]:
    a storage returned by [create] hands [hard_ttl] to each token it
    creates, together with the connection and the worker that called
    [create_token], and [put_value] on that token appends
    [SET rkey value PX hard_ttl]. *)
Theorem hard_ttl_reaches_SET strtok get_int name config arguments storage
  current pRedis dbg stray rkey words pValue log :
  fst (RedisStorage.create strtok get_int name config arguments) = Some storage ->
  exists token,
    RedisStorage.create_token storage current (Some pRedis) = (true, Some token, [])
    /\ m_redis token = pRedis
    /\ m_pWorker token = current
    /\ In (Format "SET %b %b PX %u"
             [arg_b rkey; arg_b (GWBUF_DATA pValue);
              arg_u (RedisStorage.hard_ttl config)])
          (appended (mkEnv token log)
             (snd (snd (put_value dbg stray rkey words pValue) (mkEnv token log)))).
Proof.
  intros E. destruct (create_ttl _ _ _ _ _ _ E) as (Httl & _ & _).
  eexists. split; [reflexivity|]. split; [reflexivity|]. split; [reflexivity|].
  unfold appended, put_value. cbn [snd].
  rewrite sent_after_put_value.
  rewrite skipn_app, Nat.sub_diag, skipn_all, app_nil_l.
  cbn [skipn sThis m_ttl RedisToken_new]. rewrite Httl.
  right. apply in_or_app. right. left. reflexivity.
Qed.

(** The theorem at work: a storage for [h:6379] with a hard ttl of 2000. *)
Lemma hard_ttl_reaches_SET_witness :
  exists token,
    RedisStorage.create_token
      (RedisStorage.mkStorage "redis" (RedisStorage.mkConfig 500 2000 0 0) "h" 6379 2000)
      4%nat (Some (mkContext [] [])) = (true, Some token, [])
    /\ m_redis token = mkContext [] []
    /\ m_pWorker token = 4%nat
    /\ In (Format "SET %b %b PX %u"
             [arg_b "q1"; arg_b (GWBUF_DATA (gwbuf "A" None));
              arg_u (RedisStorage.hard_ttl (RedisStorage.mkConfig 500 2000 0 0))])
          (appended (mkEnv token [])
             (snd (snd (put_value true faults "q1" ["t1"%string] (gwbuf "A" None))
                     (mkEnv token [])))).
Proof.
  exact (hard_ttl_reaches_SET RedisStorage.spec_strtok RedisStorage.spec_get_int
           "redis" (RedisStorage.mkConfig 500 2000 0 0) "h:6379"
           (RedisStorage.mkStorage "redis" (RedisStorage.mkConfig 500 2000 0 0) "h" 6379 2000)
           4%nat (mkContext [] []) true faults "q1" ["t1"%string] (gwbuf "A" None) [] eq_refl).
Defined.

(** ** Redis::Reply: every reply is freed once *)

(** X14.  Moving a [Reply] changes nothing in what is freed: after the
    move constructor, destroying the new object and the one moved from
    frees what destroying the original would have freed; and after a move
    assignment, what the assignment freed, followed by what destroying
    the two objects frees, is what destroying the two would have freed
    before it.  The object moved from is left empty and frees nothing. *)
Theorem move_keeps_frees (this other : Ownership.Reply) :
  (let (new, moved) := Ownership.move other in
   Ownership.destroy new ++ Ownership.destroy moved = Ownership.destroy other
   /\ moved = Ownership.empty)
  /\ (let '(this', moved, freed) := Ownership.move_assign this other in
      freed ++ Ownership.destroy this' ++ Ownership.destroy moved
      = Ownership.destroy this ++ Ownership.destroy other
      /\ moved = Ownership.empty).
Proof.
  destruct this as [[p|] [|]], other as [[q|] [|]]; repeat split.
Qed.

Lemma assign_elements_frees children : forall el,
  snd (Ownership.assign_elements el children)
  = match children with [] => [] | _ :: _ => Ownership.destroy el end
  /\ Ownership.destroy (fst (Ownership.assign_elements el children))
     = match children with [] => Ownership.destroy el | _ :: _ => [] end.
Proof.
  induction children as [|child children IH]; intros el; [now split|].
  cbn [Ownership.assign_elements Ownership.move_assign Ownership.reset
       Ownership.element Ownership.m_pReply Ownership.m_ownership].
  specialize (IH (Ownership.mkReply (Some child) Ownership.BORROWED)).
  destruct (Ownership.assign_elements
              (Ownership.mkReply (Some child) Ownership.BORROWED) children)
    as [el'' freed'].
  cbn [fst snd] in *. destruct IH as [IH1 IH2]. rewrite IH1, IH2.
  destruct children; split; try reflexivity;
    destruct el as [[p|] [|]]; reflexivity.
Qed.

(** X15.  The elements of an array reply are never freed on their own.
    Let [element], empty at first, be assigned [reply.element(i)] for any
    number of children of a reply, as the loops over the reply to [EXEC]
    do; then destroying [element] and all the temporaries frees nothing,
    so that the destruction of the reply that owns the array is the only
    call of [freeReplyObject]. *)
Theorem elements_are_not_freed children :
  let (el, freed) := Ownership.assign_elements Ownership.empty children in
  freed ++ Ownership.destroy el = [].
Proof.
  destruct (assign_elements_frees children Ownership.empty) as [H1 H2].
  destruct (Ownership.assign_elements Ownership.empty children) as [el freed].
  cbn [fst snd] in *. rewrite H1, H2. now destruct children.
Qed.

(** ** get_value and del_value: one command, one read *)

(** X16.  [get_value] and [del_value] never stop at an assertion,
    whatever the server replies and in debug builds too: each appends its
    one command, [GET rkey] or [DEL rkey], takes exactly one read off the
    connection, and posts its delivery to the token's worker. *)
Theorem get_and_del_complete dbg rkey e :
  (exists d e',
     snd (get_value dbg rkey) e = (Val (mkPost (m_pWorker (sThis e)) d), e')
     /\ sent e' = sent e ++ [Format "GET %b" [arg_b rkey]]
     /\ pending e' = tl (pending e))
  /\ (exists d e',
        snd (del_value dbg rkey) e = (Val (mkPost (m_pWorker (sThis e)) d), e')
        /\ sent e' = sent e ++ [Format "DEL %b" [arg_b rkey]]
        /\ pending e' = tl (pending e)).
Proof.
  rewrite (env_eta e).
  generalize (sent e) (pending e) (m_pWorker (sThis e)) (m_ttl (sThis e)) (mxs_log e).
  intros cmds rs w ttl log. unfold get_value, del_value, get_value_job, del_value_job.
  cbn [snd]. split.
  - destruct rs as [|[[]|] rest]; destruct dbg; run; do 2 eexists;
      (split; [reflexivity|split; reflexivity]).
  - destruct rs as [|[[| |i| | |]|] rest]; destruct dbg; run;
      try (destruct (i =? 0); [|destruct (i =? 1)]; simpl);
      do 2 eexists; (split; [reflexivity|split; reflexivity]).
Qed.

(** ** What is delivered, reply by reply *)

Lemma posted_result_post {A} (m : M A) (d : A -> delivery) e :
  posted_result ((a <- m ;; this <- get_this ;; Worker_execute (m_pWorker this) (d a)) e)
  = match fst (m e) with
    | Val a => Val (delivered (d a))
    | Fail f => Fail f
    end.
Proof. unfold posted_result, bind. now destruct (m e) as [[a|f] e1]. Qed.

(** *** The loops over the elements of the reply to EXEC *)

(** A debug build asserts that each element the loop looks at is an
    Integer. *)
Lemma integers_asserted stray els n : forall i e,
  (i + n <= List.length els)%nat ->
  for_from i n
    (fun i => el <- element true stray (REDIS_REPLY_ARRAY els) i ;;
              mxb_assert true (is_integer el)) e
  = (if forallb is_integer (firstn n (skipn i els)) then Val tt else Fail assertion_failed, e).
Proof.
  induction n as [|n IH]; intros i e Hi; [reflexivity|].
  assert (Hlt : (i < List.length els)%nat) by lia.
  assert (Hb : (i <? List.length els)%nat = true) by now apply Nat.ltb_lt.
  destruct (nth_error els i) as [el|] eqn:Hel;
    [|apply nth_error_Some in Hlt; congruence].
  assert (Hskip : skipn i els = el :: skipn (S i) els).
  { clear - Hel. revert els Hel. induction i as [|i IHi]; intros [|x els] Hel;
      try discriminate; simpl in *.
    - now inversion Hel.
    - now apply IHi. }
  rewrite Hskip. cbn [firstn forallb for_from].
  unfold bind at 1. unfold bind at 1.
  replace (element true stray (REDIS_REPLY_ARRAY els) i e) with (Val el, e)
    by (run; rewrite Hb, Hel; reflexivity).
  destruct (is_integer el); cbn [mxb_assert andb].
  - unfold ret at 1. apply IH. lia.
  - reflexivity.
Qed.

(** A release build only reads them. *)
Lemma elements_read stray reply n : forall i e,
  for_from i n
    (fun i => el <- element false stray reply i ;; mxb_assert false (is_integer el)) e
  = (if forallb (fun i => match release_element stray reply i with
                          | Some _ => true
                          | None => false
                          end) (seq i n)
     then Val tt else Fail invalid_read, e).
Proof.
  induction n as [|n IH]; intros i e; [reflexivity|].
  cbn [seq forallb for_from]. unfold bind at 1. unfold bind at 1.
  replace (element false stray reply i e)
    with (match release_element stray reply i with
          | Some el => Val el
          | None => Fail invalid_read
          end, e).
  2:{ unfold release_element. run.
      destruct (nth_error (field_element reply) i); [reflexivity|].
      now destruct (stray reply i). }
  destruct (release_element stray reply i); cbn [andb]; [|reflexivity].
  cbn [mxb_assert]. unfold ret at 1. apply IH.
Qed.

(** *** put_value *)

Lemma put_value_exec_debug stray n reply :
  returns (fun rv => rv = CACHE_RESULT_OK)
    (put_value_exec true stray n CACHE_RESULT_OK (Some reply)).
Proof.
  unfold put_value_exec.
  destruct reply as [|l| | | |];
    try (intros e a e' E; run; discriminate).
  apply returns_bind; intros _. apply returns_bind; intros _.
  apply returns_bind; intros _. apply returns_bind; intros el.
  apply returns_bind; intros _.
  destruct (negb (is_status el (Some "OK"%string))); [|now apply returns_ret].
  intros e a e' E. run. discriminate.
Qed.

Lemma put_value_exec_debug_stops stray n reply e :
  stored_array n reply = false ->
  fst (put_value_exec true stray n CACHE_RESULT_OK (Some reply) e) = Fail assertion_failed.
Proof.
  intros Hs. unfold put_value_exec.
  destruct reply as [|els| | | |]; try reflexivity.
  cbn [stored_array] in Hs.
  rewrite (bind_val _ _ _ tt e) by reflexivity.
  destruct (List.length els =? n + 1)%nat eqn:Hlen.
  2:{ run. rewrite Hlen. reflexivity. }
  rewrite (bind_val _ _ _ tt e) by (run; rewrite Hlen; reflexivity).
  apply Nat.eqb_eq in Hlen. cbn [andb] in Hs.
  unfold for_. unfold bind at 1.
  rewrite (integers_asserted stray els n 0 e) by lia.
  destruct (forallb is_integer (firstn n (skipn 0 els))); [|reflexivity].
  assert (Hb : (n <? List.length els)%nat = true) by (apply Nat.ltb_lt; lia).
  destruct (nth_error els n) as [el|] eqn:Hel.
  - run. rewrite Hb, Hel. simpl.
    destruct el; simpl in *; try reflexivity. rewrite Hs. reflexivity.
  - apply nth_error_None in Hel. lia.
Qed.

Lemma put_value_exec_release stray n reply e :
  fst (put_value_exec false stray n CACHE_RESULT_OK (Some reply) e)
  = match release_element stray reply n with
    | Some el =>
        Val (if is_status el (Some "OK"%string) then CACHE_RESULT_OK else CACHE_RESULT_ERROR)
    | None => Fail invalid_read
    end.
Proof.
  unfold put_value_exec, release_element. run.
  destruct (nth_error (field_element reply) n) as [el|].
  - simpl. destruct (is_status el (Some "OK"%string)); reflexivity.
  - destruct (stray reply n) as [el|]; [|reflexivity].
    simpl. destruct (is_status el (Some "OK"%string)); reflexivity.
Qed.

Lemma put_value_result_eq dbg stray rkey words pValue e :
  put_value_result dbg stray rkey words pValue e
  = if accepts "OK" (next_read (pending e)) then
      match next_read (skipn (List.length words + 2) (pending e)) with
      | None => Val CACHE_RESULT_ERROR
      | Some reply =>
          match
            fst (put_value_exec dbg stray (List.length words) CACHE_RESULT_OK (Some reply)
                   (env_of (sent e ++ Format "MULTI" [] :: map (HSET rkey) words
                              ++ [SET_PX rkey (GWBUF_DATA pValue) (m_ttl (sThis e));
                                  Format "EXEC" []])
                      (skipn (List.length words + 3) (pending e))
                      (m_pWorker (sThis e)) (m_ttl (sThis e))
                      ((mxs_log e ++ status_line "OK" (next_read (pending e)))
                       ++ flat_map (status_line "QUEUED")
                            (reads (List.length words + 1) (tl (pending e))))))
          with
          | Val rv => Val rv
          | Fail f => Fail f
          end
      end
    else Val CACHE_RESULT_OK.
Proof.
  unfold put_value_result, put_value, gwbuf_clone. cbn [snd].
  rewrite (env_eta e) at 1. rewrite put_value_job_eq, posted_result_post.
  rewrite put_value_replies_eq.
  destruct (accepts "OK" (next_read (pending e))); [|reflexivity].
  destruct (next_read (skipn (List.length words + 2) (pending e))); [reflexivity|].
  unfold put_value_exec. run. reflexivity.
Qed.

(** C3, the code at the failing inputs.  [expect_status] accepted the
    reply to [MULTI], and the reply to [EXEC] can be read but is not an
    Array of [|W|+1] elements whose element at index [|W|] is Status OK.
    - A debug build stops at a failed assertion, whatever the reply is:
      nothing is posted, and ERROR is not delivered.
    - A release build asserts nothing and reads [element(|W|)] unchecked.
      Where the reply has an element at that index, OK or ERROR is posted
      as the element is Status OK or not.  Where it has none (a reply that
      is not an Array, or a shorter Array), the job reads outside the
      reply, and what is posted is decided by what that read finds: the
      job is killed when it faults, OK is posted when it finds Status OK,
      ERROR when it finds anything else. *)
Theorem put_value_exec_surprise stray rkey words pValue e reply :
  accepts "OK" (next_read (pending e)) = true ->
  next_read (skipn (List.length words + 2) (pending e)) = Some reply ->
  stored_array (List.length words) reply = false ->
  put_value_result true stray rkey words pValue e = Fail assertion_failed
  /\ put_value_result false stray rkey words pValue e
     = match release_element stray reply (List.length words) with
       | Some el =>
           Val (if is_status el (Some "OK"%string)
                then CACHE_RESULT_OK else CACHE_RESULT_ERROR)
       | None => Fail invalid_read
       end.
Proof.
  intros Hm He Hs. rewrite !put_value_result_eq, Hm, He. split.
  - now rewrite put_value_exec_debug_stops.
  - rewrite put_value_exec_release.
    now destruct (release_element stray reply (List.length words)).
Qed.

(** The theorem at work: the server accepted [MULTI], refused the queued
    [SET] and answered [EXEC] with an Error reply.  A debug build stops at
    [mxb_assert(reply.is_array())]; a release build reads [element(0)] of
    a reply that has no elements, and is killed, or posts OK, or posts
    ERROR, as that read faults, finds Status OK, or finds a Nil reply. *)
Lemma put_value_exec_surprise_witness :
  let abort :=
    REDIS_REPLY_ERROR "EXECABORT Transaction discarded because of previous errors." in
  let e := env_of []
             [Some (REDIS_REPLY_STATUS "OK");
              Some (REDIS_REPLY_ERROR "OOM command not allowed when used memory > 'maxmemory'.");
              Some abort]
             0%nat 1000 [] in
  (put_value_result true faults "k" [] (gwbuf "v" None) e = Fail assertion_failed
   /\ put_value_result false faults "k" [] (gwbuf "v" None) e = Fail invalid_read)
  /\ put_value_result false (finds (REDIS_REPLY_STATUS "OK")) "k" [] (gwbuf "v" None) e
     = Val CACHE_RESULT_OK
  /\ put_value_result false (finds REDIS_REPLY_NIL) "k" [] (gwbuf "v" None) e
     = Val CACHE_RESULT_ERROR.
Proof.
  intros abort e. split; [|split].
  - exact (put_value_exec_surprise faults "k" [] (gwbuf "v" None) e abort
             eq_refl eq_refl eq_refl).
  - exact (proj2 (put_value_exec_surprise (finds (REDIS_REPLY_STATUS "OK")) "k" []
                    (gwbuf "v" None) e abort eq_refl eq_refl eq_refl)).
  - exact (proj2 (put_value_exec_surprise (finds REDIS_REPLY_NIL) "k" []
                    (gwbuf "v" None) e abort eq_refl eq_refl eq_refl)).
Defined.

(** X17.  When [put_value] delivers ERROR.  In a debug build: exactly
    when [expect_status] accepted the reply to [MULTI] and the reply to
    [EXEC] could not be read.  In a release build: exactly when
    [expect_status] accepted the reply to [MULTI] and either the reply to
    [EXEC] could not be read, or what [element(|W|)] hands back, read
    inside the reply or unchecked outside it, is not a Status equal to
    OK.  A reply to [MULTI] that is not accepted never leads to ERROR. *)
Theorem put_value_ERROR_iff stray rkey words pValue e :
  let exec := next_read (skipn (List.length words + 2) (pending e)) in
  (put_value_result true stray rkey words pValue e = Val CACHE_RESULT_ERROR
   <-> accepts "OK" (next_read (pending e)) = true /\ exec = None)
  /\ (put_value_result false stray rkey words pValue e = Val CACHE_RESULT_ERROR
      <-> accepts "OK" (next_read (pending e)) = true
          /\ (exec = None
              \/ exists reply el,
                   exec = Some reply
                   /\ release_element stray reply (List.length words) = Some el
                   /\ is_status el (Some "OK"%string) = false)).
Proof.
  cbv zeta. rewrite !put_value_result_eq.
  destruct (accepts "OK" (next_read (pending e))).
  2:{ split; split; try discriminate; intros [H _]; discriminate. }
  destruct (next_read (skipn (List.length words + 2) (pending e))) as [reply|].
  2:{ split; split; auto. }
  split.
  - split; [|intros [_ H]; discriminate].
    match goal with |- context [put_value_exec true stray ?n ?rv ?r ?e1] =>
      destruct (put_value_exec true stray n rv r e1) as [[rv'|f] e2] eqn:E
    end; cbn [fst]; [|discriminate].
    apply put_value_exec_debug in E. subst rv'. discriminate.
  - rewrite put_value_exec_release.
    destruct (release_element stray reply (List.length words)) as [el|] eqn:Hel.
    + destruct (is_status el (Some "OK"%string)) eqn:Hst.
      * split; [discriminate|].
        intros [_ [H|(r & el' & Hr & Hn & Hs)]]; [discriminate|].
        inversion Hr; subst. congruence.
      * split; [|reflexivity]. intros _. split; [reflexivity|].
        right. exists reply, el. now repeat split.
    + split; [discriminate|].
      intros [_ [H|(r & el' & Hr & Hn & Hs)]]; [discriminate|].
      inversion Hr; subst. congruence.
Qed.

(** *** invalidate *)

Lemma invalidate_exec_rv dbg stray size rv reply :
  returns (fun rv' => rv' = rv) (invalidate_exec dbg stray size rv (Some reply)).
Proof. unfold invalidate_exec. returns_cases. Qed.

Lemma invalidate_result_eq dbg stray words e :
  let g := gathered_keys words (pending e) in
  let rs := skipn (List.length words) (pending e) in
  invalidate_result dbg stray words e
  = if (1 <? List.length (del_argv g))%nat then
      if accepts "OK" (next_read rs) then
        match next_read (skipn (List.length (hdel_argvs g) + 2) rs) with
        | None => Val CACHE_RESULT_ERROR
        | Some reply =>
            match
              fst (invalidate_exec dbg stray (List.length (hdel_argvs g)) CACHE_RESULT_OK
                     (Some reply)
                     (env_of ((sent e ++ map HGETALL words) ++ delete_commands g)
                        (skipn (List.length (hdel_argvs g) + 3) rs)
                        (m_pWorker (sThis e)) (m_ttl (sThis e))
                        (((mxs_log e
                           ++ flat_map gather_lines (reads (List.length words) (pending e)))
                          ++ status_line "OK" (next_read rs))
                         ++ flat_map (status_line "QUEUED")
                              (reads (List.length (hdel_argvs g) + 1) (tl rs)))))
            with
            | Val rv => Val rv
            | Fail f => Fail f
            end
        end
      else Val CACHE_RESULT_ERROR
    else Val CACHE_RESULT_OK.
Proof.
  intros g rs. unfold invalidate_result, invalidate. cbn [snd].
  rewrite (env_eta e) at 1. rewrite invalidate_job_eq. cbv zeta. fold g. fold rs.
  rewrite posted_result_post.
  destruct (1 <? List.length (del_argv g))%nat; [|reflexivity].
  rewrite invalidate_delete_eq, invalidate_delete_replies_eq.
  destruct (accepts "OK" (next_read rs)); [|reflexivity].
  destruct (next_read (skipn (List.length (hdel_argvs g) + 2) rs)); [reflexivity|].
  unfold invalidate_exec. run. reflexivity.
Qed.

Lemma invalidate_exec_debug stray size rv reply e :
  fst (invalidate_exec true stray size rv (Some reply) e)
  = if counts_array size (Some reply) then Val rv else Fail assertion_failed.
Proof.
  unfold invalidate_exec.
  destruct reply as [|els| | | |]; try reflexivity.
  cbn [counts_array].
  rewrite (bind_val _ _ _ tt e) by reflexivity.
  destruct (List.length els =? size + 1)%nat eqn:Hlen.
  2:{ run. rewrite Hlen. reflexivity. }
  rewrite (bind_val _ _ _ tt e) by (run; rewrite Hlen; reflexivity).
  apply Nat.eqb_eq in Hlen. cbn [andb].
  assert (Hb : (size <? List.length els)%nat = true) by (apply Nat.ltb_lt; lia).
  destruct (nth_error els size) as [el|] eqn:Hel;
    [|apply nth_error_None in Hel; lia].
  assert (Hall : forallb is_integer els
                 = forallb is_integer (firstn size (skipn 0 els)) && is_integer el).
  { cbn [skipn]. rewrite <- (firstn_skipn size els) at 1. rewrite forallb_app.
    f_equal. clear - Hel Hlen. revert els Hel Hlen.
    induction size as [|size IH]; intros [|x els] Hel Hlen; try discriminate; simpl in *.
    - inversion Hel; subst. destruct els; [|simpl in Hlen; lia].
      simpl. now rewrite andb_true_r.
    - apply IH; [assumption|lia]. }
  rewrite Hall.
  unfold for_. unfold bind at 1.
  rewrite (integers_asserted stray els size 0 e) by lia.
  destruct (forallb is_integer (firstn size (skipn 0 els))); [|reflexivity].
  run. rewrite Hb, Hel. simpl. now destruct (is_integer el).
Qed.

Lemma invalidate_exec_release stray size rv reply e :
  fst (invalidate_exec false stray size rv (Some reply) e)
  = if reads_through stray reply (S size) then Val rv else Fail invalid_read.
Proof.
  unfold invalidate_exec, reads_through.
  rewrite seq_S, forallb_app. cbn [forallb Nat.add].
  rewrite (bind_val _ _ _ tt e) by reflexivity.
  rewrite (bind_val _ _ _ tt e) by reflexivity.
  unfold for_. unfold bind at 1. rewrite (elements_read stray reply size 0 e).
  match goal with |- context [forallb ?f (seq 0 size)] =>
    destruct (forallb f (seq 0 size))
  end; [|reflexivity].
  cbn [andb]. unfold release_element. run.
  destruct (nth_error (field_element reply) size); [reflexivity|].
  now destruct (stray reply size).
Qed.

(** C5, the code at the failing inputs.  Phase A found a key, so Phase B
    is sent; [size] is [hdel_argvs.size()].
    - The reply to [MULTI] can be read and is not a Status (an Error
      reply, say), so it did not match Status OK: [expect_status] logs
      that and returns [true], the job goes on, and with an Array of
      [size + 1] Integer replies for [EXEC] it posts OK, in debug and
      release builds.
    - [expect_status] accepted the reply to [MULTI] and the reply to
      [EXEC] can be read: a debug build posts OK only for an Array of
      [size + 1] Integer replies, and stops at a failed assertion for
      any other reply; a release build asserts nothing, reads
      [element(0)] to [element(size)] unchecked, and posts OK unless one
      of those reads faults. *)
Theorem invalidate_unchecked_replies stray words e :
  let g := gathered_keys words (pending e) in
  let rs := skipn (List.length words) (pending e) in
  let size := List.length (hdel_argvs g) in
  let exec := next_read (skipn (size + 2) rs) in
  (1 <? List.length (del_argv g))%nat = true ->
  (forall dbg multi,
     next_read rs = Some multi ->
     is_status multi None = false ->
     counts_array size exec = true ->
     invalidate_result dbg stray words e = Val CACHE_RESULT_OK)
  /\ (forall reply,
        accepts "OK" (next_read rs) = true ->
        exec = Some reply ->
        invalidate_result true stray words e
        = (if counts_array size exec then Val CACHE_RESULT_OK else Fail assertion_failed)
        /\ invalidate_result false stray words e
           = (if reads_through stray reply (S size)
              then Val CACHE_RESULT_OK else Fail invalid_read)).
Proof.
  intros g rs size exec Hk. split.
  - intros dbg multi Hm Hst Hc.
    rewrite invalidate_result_eq. cbv zeta. fold g rs size exec.
    rewrite Hk, Hm. unfold accepts, status_differs. rewrite Hst. cbn [andb negb].
    destruct exec as [reply|] eqn:He; [|discriminate].
    destruct dbg.
    + now rewrite invalidate_exec_debug, Hc.
    + destruct reply as [|els| | | |]; try discriminate.
      unfold invalidate_exec. cbn [counts_array] in Hc.
      apply andb_true_iff in Hc. destruct Hc as [Hlen Hall].
      apply Nat.eqb_eq in Hlen.
      rewrite (bind_val _ _ _ tt _) by reflexivity.
      rewrite (bind_val _ _ _ tt _) by reflexivity.
      unfold for_.
      rewrite (bind_val _ _ _ _ _ (counts_checked false stray els size 0 _ ltac:(lia) Hall)).
      assert (Hlt : (size < List.length els)%nat) by lia.
      destruct (nth_error els size) as [el|] eqn:Hel;
        [|apply nth_error_Some in Hlt; congruence].
      run. rewrite Hel. reflexivity.
  - intros reply Hm He.
    rewrite !invalidate_result_eq. cbv zeta. fold g rs size exec.
    rewrite Hk, Hm, He.
    rewrite invalidate_exec_debug, invalidate_exec_release.
    split.
    + now destruct (counts_array size (Some reply)).
    + now destruct (reads_through stray reply (S size)).
Qed.

(** The theorem at work.  Phase A found the key [q1] under [t1].
    - The server refused [MULTI] with an Error reply and answered the
      rest: OK is posted, in debug and release builds.
    - The server accepted [MULTI] and answered [EXEC] with an Error
      reply: a debug build stops at [mxb_assert(reply.is_array())]; a
      release build reads [element(0)] and [element(1)] of a reply that
      has no elements, and is killed when such a read faults, and posts OK
      when it does not. *)
Lemma invalidate_unchecked_replies_witness :
  let hgetall := Some (REDIS_REPLY_ARRAY [REDIS_REPLY_STRING "q1"; REDIS_REPLY_STRING "1"]) in
  let queued := Some (REDIS_REPLY_STATUS "QUEUED") in
  let refusal := REDIS_REPLY_ERROR "ERR MULTI calls can not be nested" in
  let abort :=
    REDIS_REPLY_ERROR "EXECABORT Transaction discarded because of previous errors." in
  let nested :=
    env_of []
      [hgetall; Some refusal; queued; queued;
       Some (REDIS_REPLY_ARRAY [REDIS_REPLY_INTEGER 1; REDIS_REPLY_INTEGER 1])]
      0%nat 1000 [] in
  let aborted :=
    env_of [] [hgetall; Some (REDIS_REPLY_STATUS "OK"); queued; queued; Some abort]
      0%nat 1000 [] in
  (invalidate_result true faults ["t1"%string] nested = Val CACHE_RESULT_OK
   /\ invalidate_result false faults ["t1"%string] nested = Val CACHE_RESULT_OK)
  /\ (invalidate_result true faults ["t1"%string] aborted = Fail assertion_failed
      /\ invalidate_result false faults ["t1"%string] aborted = Fail invalid_read)
  /\ invalidate_result false (finds REDIS_REPLY_NIL) ["t1"%string] aborted
     = Val CACHE_RESULT_OK.
Proof.
  intros hgetall queued refusal abort nested aborted. split; [split|split].
  - exact (proj1 (invalidate_unchecked_replies faults ["t1"%string] nested eq_refl)
             true refusal eq_refl eq_refl eq_refl).
  - exact (proj1 (invalidate_unchecked_replies faults ["t1"%string] nested eq_refl)
             false refusal eq_refl eq_refl eq_refl).
  - exact (proj2 (invalidate_unchecked_replies faults ["t1"%string] aborted eq_refl)
             abort eq_refl eq_refl).
  - exact (proj2 (proj2 (invalidate_unchecked_replies (finds REDIS_REPLY_NIL)
                           ["t1"%string] aborted eq_refl)
                    abort eq_refl eq_refl)).
Defined.

(** X18.  When [invalidate] delivers ERROR, in debug and release builds
    alike: exactly when Phase A found a key and either [expect_status]
    did not accept the reply to [MULTI], or it did and the read that
    follows its [hdel_argvs.size() + 1] reads for QUEUED could not be
    read.  No reply to [EXEC] that can be read leads to ERROR, whatever
    it holds. *)
Theorem invalidate_ERROR_iff dbg stray words e :
  let g := gathered_keys words (pending e) in
  let rs := skipn (List.length words) (pending e) in
  invalidate_result dbg stray words e = Val CACHE_RESULT_ERROR
  <-> (1 <? List.length (del_argv g))%nat = true
      /\ (accepts "OK" (next_read rs) = false
          \/ next_read (skipn (List.length (hdel_argvs g) + 2) rs) = None).
Proof.
  intros g rs. rewrite invalidate_result_eq. cbv zeta. fold g. fold rs.
  destruct (1 <? List.length (del_argv g))%nat.
  2:{ split; [discriminate|intros [H _]; discriminate]. }
  destruct (accepts "OK" (next_read rs)).
  2:{ split; auto. }
  destruct (next_read (skipn (List.length (hdel_argvs g) + 2) rs)) as [reply|].
  2:{ split; auto. }
  split; [|intros [_ [H|H]]; discriminate].
  match goal with |- context [invalidate_exec dbg stray ?n ?rv ?r ?e1] =>
    destruct (invalidate_exec dbg stray n rv r e1) as [[rv'|f] e2] eqn:E
  end; cbn [fst]; [|discriminate].
  apply invalidate_exec_rv in E. subst rv'. discriminate.
Qed.
